(** * Verification of the diagnosis server (server.js)

    The development embeds the inference pipeline of [server.js]:
    the image normaliser [preprocessImage], the prediction step
    [makePrediction] with its result interpretation, and the two request
    handlers [POST /predict] and [POST /predict/upload].

    Number models.  The pipeline is stated over exact rationals ([Q]): a
    raw score is a finite number and arithmetic is not rounded; rational
    results are compared with [==] ([Qeq]).  The properties of the result
    interpreter that depend on the rounding of binary64, the symmetry of
    the labels, the rounding of the confidence and its lower bound, are
    stated over the module [Binary64], which rounds every operation and
    has the infinities and [NaN].

    Effects.  The globals [model] and [isModelLoaded] and the calls made
    to the decoder and to the model are threaded through a state and
    exception monad.  Console output, the disposal of tensors and the time
    stamps of the responses are left out. *)

From Stdlib Require Import ZArith QArith Qround Qminmax String Ascii List Bool Lia Lqa.
From Stdlib Require Import Strings.Byte.
From Stdlib Require Import Qabs Qpower Qreduction.
From Stdlib Require PrimFloat FloatOps SpecFloat Uint63.
From stdpp Require Import list.
Import ListNotations.

Local Open Scope string_scope.
Local Open Scope Q_scope.

(** ** JavaScript numbers *)

(** [Math.round(x)]: the integer closest to [x], ties going towards
    +infinity, that is [floor (x + 1/2)]. *)
Definition Math_round (x : Q) : Q := inject_Z (Qfloor (x + (1 # 2))).

(** The comparison [x > y]. *)
Definition js_gt (x y : Q) : bool := negb (Qle_bool x y).

(** ** Result interpretation (makePrediction, lines 109-118) *)

(** The object returned by [makePrediction]. *)
Record Prediction := {
  diagnosis : string;
  confidence : Q;
  rawPrediction : Q
}.

(** [const isMalignant = confidence > 0.5;] *)
Definition isMalignant (confidence : Q) : bool := js_gt confidence 0.5.

(** [const finalConfidence = isMalignant ? confidence : 1 - confidence;] *)
Definition finalConfidence (confidence : Q) : Q :=
  if isMalignant confidence then confidence else 1 - confidence.

(** The percentage [finalConfidence * 100], the value that line 116 rounds
    to two decimals. *)
Definition percentage (confidence : Q) : Q := finalConfidence confidence * 100.

(** Lines 109-118: from the model's first output value to the returned
    object. *)
Definition interpret (confidence : Q) : Prediction :=
  let isMalignant := isMalignant confidence in
  let diagnosis := if isMalignant then "Maligno" else "Benigno" in
  let finalConfidence := finalConfidence confidence in
  {| diagnosis := diagnosis;
     confidence := Math_round (finalConfidence * 100 * 100) / 100;
     rawPrediction := confidence |}.

(** ** Reference notions used to state the rounding claims *)

(** Rounding a percentage to two decimals the way line 116 does:
    [Math.round(p * 100) / 100]. *)
Definition round2 (p : Q) : Q := Math_round (p * 100) / 100.

(** Round to the nearest integer, ties away from zero. *)
Definition round_half_away (x : Q) : Z :=
  if Qle_bool 0 x then Qfloor (x + (1 # 2)) else (- Qfloor (- x + (1 # 2)))%Z.

(** Round to the nearest integer, ties to the even neighbour. *)
Definition round_half_even (x : Q) : Z :=
  let f := Qfloor x in
  let r := x - inject_Z f in
  if Qle_bool r (1 # 2)
  then (if Qeq_bool r (1 # 2) then (if Z.even f then f else f + 1)%Z else f)
  else (f + 1)%Z.

(** A percentage rounded to two decimals, ties away from zero. *)
Definition round2_half_away (p : Q) : Q := inject_Z (round_half_away (p * 100)) / 100.

(** A percentage rounded to two decimals, ties to even. *)
Definition round2_half_even (p : Q) : Q := inject_Z (round_half_even (p * 100)) / 100.


(** ** JavaScript values, errors and outcomes *)

(** The value of a field of a parsed JSON body ([undefined] when absent). *)
Inductive JsValue :=
| JsUndefined
| JsNull
| JsBool (b : bool)
| JsNumber (q : Q)
| JsString (s : string)
| JsObject.

(** Truthiness, as tested by [!image]. *)
Definition truthy (v : JsValue) : bool :=
  match v with
  | JsUndefined | JsNull => false
  | JsBool b => b
  | JsNumber q => negb (Qeq_bool q 0)
  | JsString EmptyString => false
  | JsString _ => true
  | JsObject => true
  end.

(** An exception object; the handlers only read its [message]. *)
Record Error := { message : string }.

(** The outcome of an evaluation that may throw. *)
Inductive Outcome (A : Type) :=
| Return (a : A)
| Throw (e : Error).
Arguments Return {A} a.
Arguments Throw {A} e.

(** ** Buffers and base64 *)

(** A [Buffer]: a sequence of bytes. *)
Abbreviation Buffer := (list byte).

Definition byte_of_N (n : N) : byte :=
  match Byte.of_N (n mod 256) with
  | Some b => b
  | None => x00
  end.

(** The value of a character of the base64 alphabets (standard and
    URL-safe), [None] for any other character. *)
Definition unbase64 (c : ascii) : option N :=
  let n := N_of_ascii c in
  if ((65 <=? n) && (n <=? 90))%N then Some (n - 65)%N
  else if ((97 <=? n) && (n <=? 122))%N then Some (n - 71)%N
  else if ((48 <=? n) && (n <=? 57))%N then Some (n + 4)%N
  else if ((n =? 43) || (n =? 45))%N then Some 62%N
  else if ((n =? 47) || (n =? 95))%N then Some 63%N
  else None.

(** The legal characters of a string up to the first ['='], the others
    being skipped, as the decoder of [Buffer.from(s, 'base64')] reads
    them. *)
Fixpoint sextets (s : string) : list N :=
  match s with
  | EmptyString => []
  | String c rest =>
      if (N_of_ascii c =? 61)%N then []
      else match unbase64 c with
           | Some v => v :: sextets rest
           | None => sextets rest
           end
  end.

(** Four 6-bit values give three bytes; a trailing group of three gives
    two bytes, of two gives one byte, and a single value gives none. *)
Fixpoint bytes_of_sextets (l : list N) : Buffer :=
  match l with
  | a :: b :: c :: d :: rest =>
      byte_of_N (a * 4 + b / 16) :: byte_of_N (b * 16 + c / 4)
        :: byte_of_N (c * 64 + d) :: bytes_of_sextets rest
  | [a; b; c] => [byte_of_N (a * 4 + b / 16); byte_of_N (b * 16 + c / 4)]
  | [a; b] => [byte_of_N (a * 4 + b / 16)]
  | _ => []
  end.

(** [Buffer.from(s, 'base64')]: a total function of the string. *)
Definition Buffer_from_base64 (s : string) : Buffer :=
  bytes_of_sextets (sextets s).

(** [strip_prefix p s]: the rest of [s] after the prefix [p], if any. *)
Fixpoint strip_prefix (p s : string) : option string :=
  match p, s with
  | EmptyString, _ => Some s
  | String a p', String b s' => if Ascii.eqb a b then strip_prefix p' s' else None
  | String _ _, EmptyString => None
  end.

Definition is_lower (c : ascii) : bool :=
  let n := N_of_ascii c in ((97 <=? n) && (n <=? 122))%N.

(** The longest run of lower-case letters at the start of a string and
    what follows it. *)
Fixpoint span_lower (s : string) : string * string :=
  match s with
  | String c rest =>
      if is_lower c
      then let '(l, r) := span_lower rest in (String c l, r)
      else (EmptyString, s)
  | EmptyString => (EmptyString, EmptyString)
  end.

(** [image.replace(/^data:image\/[a-z]+;base64,/, '')] on a string. *)
Definition strip_data_url (image : string) : string :=
  match strip_prefix "data:image/" image with
  | Some rest =>
      match span_lower rest with
      | (String _ _, rest') =>
          match strip_prefix ";base64," rest' with
          | Some base64Data => base64Data
          | None => image
          end
      | (EmptyString, _) => image
      end
  | None => image
  end.

(** The inner [try] block of [POST /predict] (lines 165-168): calling
    [replace] on a value that is not a string throws a [TypeError]. *)
Definition decode_image_field (image : JsValue) : Outcome Buffer :=
  match image with
  | JsString s => Return (Buffer_from_base64 (strip_data_url s))
  | _ => Throw {| message := "image.replace is not a function" |}
  end.

(** ** Bitmaps and tensors *)

(** [image.bitmap]: the decoded pixels, four bytes (RGBA) per pixel. *)
Record Bitmap := {
  width : nat;
  height : nat;
  data : Buffer
}.

(** An element of a [Float32Array]: a number or [NaN]. *)
Inductive f32 :=
| Num (q : Q)
| NaN.

(** A tensor: its shape and its values in row-major order. *)
Record Tensor := {
  shape : list nat;
  values : list f32
}.

Definition byte_to_Q (b : byte) : Q := inject_Z (Z.of_N (Byte.to_N b)).

(** [data[i] / 255.0]; reading past the end of the buffer gives
    [undefined], and [undefined / 255.0] is [NaN]. *)
Definition div255 (data : Buffer) (i : nat) : f32 :=
  match data !! i with
  | Some b => Num (byte_to_Q b / 255)
  | None => NaN
  end.

(** The loop of lines 75-80, [fuel] bounding the number of iterations.  A
    write past the end of a typed array is ignored, as [<[_:=_]>] does. *)
Fixpoint rgb_loop (fuel : nat) (data : Buffer) (i : nat)
    (rgbData : list f32) (rgbIndex : nat) : list f32 :=
  match fuel with
  | O => rgbData
  | S fuel' =>
      if (i <? length data)%nat then
        let rgbData := <[rgbIndex := div255 data i]> rgbData in
        let rgbData := <[(rgbIndex + 1)%nat := div255 data (i + 1)]> rgbData in
        let rgbData := <[(rgbIndex + 2)%nat := div255 data (i + 2)]> rgbData in
        rgb_loop fuel' data (i + 4) rgbData (rgbIndex + 3)
      else rgbData
  end.

(** Lines 72-80: [new Float32Array(width * height * 3)] filled by the
    loop; [length data] iterations are always enough. *)
Definition rgba_to_rgb (width height : nat) (data : Buffer) : list f32 :=
  rgb_loop (length data) data 0 (replicate (width * height * 3) (Num 0)) 0.

(** The source index read for the element [k] of the output: pixel
    [k / 3], channel [k mod 3]. *)
Definition source_index (k : nat) : nat := (4 * (k / 3) + k mod 3)%nat.

(** [tf.tensor3d(values, shape)]: throws unless the number of values is
    the product of the dimensions. *)
Definition tf_tensor3d (values : list f32) (shape : list nat) : Outcome Tensor :=
  if (length values =? foldr Nat.mul 1%nat shape)%nat
  then Return {| shape := shape; values := values |}
  else Throw {| message := "Based on the provided shape, the tensor should have a different number of values" |}.

(** [t.expandDims(0)]. *)
Definition expandDims0 (t : Tensor) : Tensor :=
  {| shape := 1%nat :: shape t; values := values t |}.

(** ** Global state and effects *)

(** A loaded graph model: [predict] followed by [data()] and the read of
    element [0], which gives the raw score or throws. *)
Record GraphModel := { predict : Tensor -> Outcome Q }.

(** The calls made to the decoder and to the model. *)
Inductive Event :=
| JimpRead (imageBuffer : Buffer)
| ModelPredict (imageTensor : Tensor).

(** The module-level variables [model] and [isModelLoaded] (lines 24-25)
    and the calls made so far. *)
Record World := {
  model : option GraphModel;
  isModelLoaded : bool;
  calls : list Event
}.

(** The state when the module has been evaluated and nothing loaded. *)
Definition initial_world : World :=
  {| model := None; isModelLoaded := false; calls := [] |}.

Definition record_call (e : Event) (w : World) : World :=
  {| model := model w; isModelLoaded := isModelLoaded w; calls := calls w ++ [e] |}.

(** Computations that read and write the globals and may throw. *)
Definition M (A : Type) : Type := World -> Outcome A * World.

Definition ret {A} (a : A) : M A := fun w => (Return a, w).

Definition throw {A} (e : Error) : M A := fun w => (Throw e, w).

Definition bind {A B} (c : M A) (k : A -> M B) : M B :=
  fun w =>
    match c w with
    | (Return a, w') => k a w'
    | (Throw e, w') => (Throw e, w')
    end.

(** [try { c } catch (error) { h error }] *)
Definition try_catch {A} (c : M A) (h : Error -> M A) : M A :=
  fun w =>
    match c w with
    | (Return a, w') => (Return a, w')
    | (Throw e, w') => h e w'
    end.

Definition lift {A} (o : Outcome A) : M A := fun w => (o, w).

Definition gets {A} (f : World -> A) : M A := fun w => (Return (f w), w).

Declare Scope js_scope.
Delimit Scope js_scope with js.
Notation "x <- c ;; k" := (bind c (fun x => k))
  (at level 100, c at next level, right associativity) : js_scope.
Local Open Scope js_scope.

(** The libraries the server calls: the image decoder and resizer of Jimp
    and the model loader of TensorFlow. *)
Class Libraries := {
  Jimp_read : Buffer -> Outcome Bitmap;
  Jimp_resize : nat -> nat -> Bitmap -> Bitmap;
  tf_loadGraphModel : string -> Outcome GraphModel
}.

(** What [image.resize(w, h)] guarantees: a bitmap of the requested size
    with four bytes per pixel. *)
Definition resize_contract (L : Libraries) : Prop :=
  forall w h img,
    width (Jimp_resize w h img) = w /\
    height (Jimp_resize w h img) = h /\
    length (data (Jimp_resize w h img)) = (w * h * 4)%nat.

(** ** The server *)

(** An HTTP response: its status and its JSON body (time stamps and the
    [success] flag are left out). *)
Inductive Body :=
| ErrorBody (error message : string)
| ResultBody (diagnosis : string) (confidence : Q).

Record Response := {
  status : nat;
  body : Body
}.

Definition model_unavailable : Response :=
  {| status := 503;
     body := ErrorBody "Modelo no disponible"
                       "El modelo aún se está cargando o falló al cargar" |}.

Definition image_required : Response :=
  {| status := 400;
     body := ErrorBody "Imagen requerida"
                       "Debe proporcionar una imagen en formato base64" |}.

Definition invalid_base64 : Response :=
  {| status := 400;
     body := ErrorBody "Formato de imagen inválido"
                       "La imagen debe estar en formato base64 válido" |}.

Definition file_required : Response :=
  {| status := 400;
     body := ErrorBody "Archivo requerido"
                       "Debe proporcionar un archivo de imagen" |}.

Definition internal_error (error : Error) : Response :=
  {| status := 500;
     body := ErrorBody "Error interno del servidor" (message error) |}.

Definition prediction_response (result : Prediction) : Response :=
  {| status := 200;
     body := ResultBody (diagnosis result) (confidence result) |}.

(** The errors the two components throw (lines 89 and 122). *)
Definition image_processing_error : Error :=
  {| message := "Error al procesar la imagen" |}.

Definition prediction_error : Error :=
  {| message := "Error al realizar la predicción" |}.

Section Server.

Context {L : Libraries}.

(** [await Jimp.read(imageBuffer)] *)
Definition call_Jimp_read (imageBuffer : Buffer) : M Bitmap :=
  fun w => (Jimp_read imageBuffer, record_call (JimpRead imageBuffer) w).

(** [await model.predict(imageTensor)] and [await prediction.data()],
    then element [0]; with [model] undefined the property access
    throws. *)
Definition call_model_predict (imageTensor : Tensor) : M Q :=
  fun w =>
    match model w with
    | Some m => (predict m imageTensor, record_call (ModelPredict imageTensor) w)
    | None =>
        (Throw {| message := "Cannot read properties of undefined (reading 'predict')" |}, w)
    end.

(** [loadModel] (lines 29-55). *)
Definition loadModel : M unit :=
  fun w =>
    match tf_loadGraphModel "model.json" with
    | Return m =>
        (Return tt, {| model := Some m; isModelLoaded := true; calls := calls w |})
    | Throw _ =>
        (Return tt, {| model := model w; isModelLoaded := false; calls := calls w |})
    end.

(** [preprocessImage] (lines 58-91). *)
Definition preprocessImage (imageBuffer : Buffer) : M Tensor :=
  try_catch
    (image <- call_Jimp_read imageBuffer ;;
     let image := Jimp_resize 224 224 image in
     let width := width image in
     let height := height image in
     let data := data image in
     let rgbData := rgba_to_rgb width height data in
     imageTensor <- lift (tf_tensor3d rgbData [224; 224; 3]%nat) ;;
     ret (expandDims0 imageTensor))
    (fun error => throw image_processing_error).

(** [makePrediction] (lines 94-124). *)
Definition makePrediction (imageTensor : Tensor) : M Prediction :=
  try_catch
    (loaded <- gets isModelLoaded ;;
     if negb loaded then throw {| message := "El modelo no está cargado" |}
     else
       confidence <- call_model_predict imageTensor ;;
       ret (interpret confidence))
    (fun error => throw prediction_error).

(** The handler of [POST /predict] (lines 145-197); [image] is
    [req.body.image]. *)
Definition predict_route (image : JsValue) : M Response :=
  try_catch
    (loaded <- gets isModelLoaded ;;
     if negb loaded then ret model_unavailable
     else if negb (truthy image) then ret image_required
     else
       match decode_image_field image with
       | Throw _ => ret invalid_base64
       | Return imageBuffer =>
           imageTensor <- preprocessImage imageBuffer ;;
           result <- makePrediction imageTensor ;;
           ret (prediction_response result)
       end)
    (fun error => ret (internal_error error)).

(** The handler of [POST /predict/upload] (lines 200-237); [file] is
    [req.file], when present its [buffer]. *)
Definition upload_route (file : option Buffer) : M Response :=
  try_catch
    (loaded <- gets isModelLoaded ;;
     if negb loaded then ret model_unavailable
     else
       match file with
       | None => ret file_required
       | Some buffer =>
           imageTensor <- preprocessImage buffer ;;
           result <- makePrediction imageTensor ;;
           ret (prediction_response result)
       end)
    (fun error => ret (internal_error error)).

(** The pipeline both handlers run on the bytes of an image: readiness
    gate, normalisation, prediction. *)
Definition process (encoded : Buffer) : M Response := upload_route (Some encoded).

End Server.

(** The number of calls to the model recorded in a list of events. *)
Fixpoint count_predict (l : list Event) : nat :=
  match l with
  | [] => 0
  | ModelPredict _ :: l' => S (count_predict l')
  | JimpRead _ :: l' => count_predict l'
  end.

(** ** A small instance of the libraries, to run the model on *)

(** A decoder that accepts a buffer starting with the byte [0x89] (the
    first byte of a PNG file) followed by the four bytes of one pixel. *)
Definition sample_read (b : Buffer) : Outcome Bitmap :=
  match b with
  | x89 :: r :: g :: bl :: a :: _ =>
      Return {| width := 1; height := 1; data := [r; g; bl; a] |}
  | _ => Throw {| message := "Could not find MIME for Buffer" |}
  end.

(** A resize that repeats the first pixel. *)
Definition sample_resize (w h : nat) (img : Bitmap) : Bitmap :=
  {| width := w; height := h;
     data := mjoin (replicate (w * h)
               [nth 0 (data img) x00; nth 1 (data img) x00;
                nth 2 (data img) x00; nth 3 (data img) x00]) |}.

(** A model whose score is the first value of the tensor, and which throws
    on an empty tensor. *)
Definition sample_model : GraphModel :=
  {| predict := fun t =>
       match values t with
       | Num q :: _ => Return q
       | _ => Throw {| message := "Error in model execution" |}
       end |}.

Definition sample_libraries : Libraries :=
  {| Jimp_read := sample_read;
     Jimp_resize := sample_resize;
     tf_loadGraphModel := fun _ => Return sample_model |}.

(** The same libraries with a model file that cannot be loaded. *)
Definition broken_libraries : Libraries :=
  {| Jimp_read := sample_read;
     Jimp_resize := sample_resize;
     tf_loadGraphModel := fun _ => Throw {| message := "ENOENT: no such file or directory" |} |}.

(** A world in which the model has been loaded. *)
Definition loaded_world : World :=
  {| model := Some sample_model; isModelLoaded := true; calls := [] |}.

(** A model that always throws, and a world that has loaded it. *)
Definition failing_model : GraphModel :=
  {| predict := fun _ => Throw {| message := "Error in model execution" |} |}.

Definition failing_world : World :=
  {| model := Some failing_model; isModelLoaded := true; calls := [] |}.

(** ** The rest of the server: status routes and start-up *)

(** [classNames] (line 26). *)
Definition classNames : list string := ["Benigno"; "Maligno"].

(** The body of the answer of [GET /health] (lines 127-133), without its
    time stamp. *)
Record Health := {
  health_status : string;
  modelLoaded : bool
}.

(** The body of the answer of [GET /model/status] (lines 136-142),
    without its time stamp. *)
Record ModelStatus := {
  loaded : bool;
  status_classNames : list string
}.

(** The handler of [GET /health]. *)
Definition health_route : M Health :=
  gets (fun w => {| health_status := "ok"; modelLoaded := isModelLoaded w |}).

(** The handler of [GET /model/status]. *)
Definition model_status_route : M ModelStatus :=
  gets (fun w => {| loaded := isModelLoaded w; status_classNames := classNames |}).

(** How [startServer] ends: listening, or the process exited. *)
Inductive ServerState :=
| Listening
| Exited (code : nat).

(** [startServer] (lines 257-276); [app.listen] is taken to succeed. *)
Definition startServer {L : Libraries} : M ServerState :=
  try_catch
    (_ <- loadModel ;;
     ret Listening)
    (fun error => ret (Exited 1)).

(** The two globals agree: a model flagged as loaded is there. *)
Definition model_ready (w : World) : Prop :=
  isModelLoaded w = true -> exists m, model w = Some m.

(** The calls one request may add: none, one call to the decoder, or one
    call to the decoder followed by one call to the model. *)
Definition one_run (l : list Event) : Prop :=
  l = [] \/
  (exists encoded, l = [JimpRead encoded]) \/
  (exists encoded t, l = [JimpRead encoded; ModelPredict t]).

(** A string made of lower-case letters only. *)
Fixpoint lower_letters (s : string) : bool :=
  match s with
  | EmptyString => true
  | String c rest => is_lower c && lower_letters rest
  end.

(** ** The test client (test-client.js) *)

(** The character of a 6-bit value in the standard base64 alphabet. *)
Definition base64_char (v : N) : ascii :=
  if (v <? 26)%N then ascii_of_N (v + 65)
  else if (v <? 52)%N then ascii_of_N (v + 71)
  else if (v <? 62)%N then ascii_of_N (v - 4)
  else if (v =? 62)%N then "+"%char
  else "/"%char.

(** [buffer.toString('base64')]: three bytes give four characters, and a
    last group of one or two bytes is padded with ['=']. *)
Fixpoint Buffer_toString_base64 (l : Buffer) : string :=
  match l with
  | b1 :: b2 :: b3 :: rest =>
      let n1 := Byte.to_N b1 in
      let n2 := Byte.to_N b2 in
      let n3 := Byte.to_N b3 in
      String (base64_char (n1 / 4))
        (String (base64_char (n1 mod 4 * 16 + n2 / 16))
           (String (base64_char (n2 mod 16 * 4 + n3 / 64))
              (String (base64_char (n3 mod 64))
                 (Buffer_toString_base64 rest))))
  | [b1; b2] =>
      let n1 := Byte.to_N b1 in
      let n2 := Byte.to_N b2 in
      String (base64_char (n1 / 4))
        (String (base64_char (n1 mod 4 * 16 + n2 / 16))
           (String (base64_char (n2 mod 16 * 4)) "="))
  | [b1] =>
      let n1 := Byte.to_N b1 in
      String (base64_char (n1 / 4))
        (String (base64_char (n1 mod 4 * 16)) "==")
  | [] => EmptyString
  end.

(** [c.toLowerCase()] on an ASCII character. *)
Definition lower_ascii (c : ascii) : ascii :=
  let n := N_of_ascii c in
  if ((65 <=? n) && (n <=? 90))%N then ascii_of_N (n + 32) else c.

(** [s.toLowerCase()]. *)
Fixpoint toLowerCase (s : string) : string :=
  match s with
  | EmptyString => EmptyString
  | String c rest => String (lower_ascii c) (toLowerCase rest)
  end.

(** What the client calls: reading a file and taking the extension of a
    path. *)
Class ClientLibraries := {
  fs_readFileSync : string -> Outcome Buffer;
  path_extname : string -> string
}.

(** [imageToBase64] (test-client.js, lines 6-16); [None] is [null]. *)
Definition imageToBase64 {C : ClientLibraries} (imagePath : string) : option string :=
  match fs_readFileSync imagePath with
  | Return imageBuffer =>
      let base64String := Buffer_toString_base64 imageBuffer in
      let mimeType :=
        if String.eqb (toLowerCase (path_extname imagePath)) ".png"
        then "image/png" else "image/jpeg" in
      Some ("data:" ++ mimeType ++ ";base64," ++ base64String)
  | Throw _ => None
  end.

(** ** More sample libraries *)

(** Libraries whose resize leaves the bitmap as it is. *)
Definition unresized_libraries : Libraries :=
  {| Jimp_read := sample_read;
     Jimp_resize := fun _ _ img => img;
     tf_loadGraphModel := fun _ => Return sample_model |}.

(** A file system with one file, and the extension of its name. *)
Definition sample_client : ClientLibraries :=
  {| fs_readFileSync := fun imagePath =>
       if String.eqb imagePath "scan.PNG"
       then Return [x89; x0a; x14; x1e; xff]
       else Throw {| message := "ENOENT: no such file or directory" |};
     path_extname := fun _ => ".PNG" |}.

(** ** Binary64 numbers

    JavaScript numbers are IEEE 754 binary64 values, and lines 109-116
    compute on them with rounding after every operation.  The module
    below gives the same interpreter over these numbers: a number is a
    rational, one of the two infinities or [NaN]; an operation computes
    the exact rational and rounds it to the nearest value with a 53-bit
    significand, ties to the even significand, with subnormals below
    [2^-1022] and overflow to an infinity from [2^1024 - 2^970] on.  A
    rational is kept in lowest terms, so that equal numbers are equal
    terms.  The sign of zero is not kept: [-0] and [0] behave alike in
    the comparison of line 110 and in the arithmetic of lines 112-116. *)

Module Binary64.

Inductive number :=
| Finite (q : Q)
| PlusInfinity
| MinusInfinity
| NotANumber.

Definition pow2 (e : Z) : Q := 2 ^ e.

(** The binade of a positive rational: [2^(ilog2 q) <= q < 2^(ilog2 q + 1)]. *)
Definition ilog2 (q : Q) : Z :=
  let r := Qred q in
  let a := (Z.log2 (Qnum r) - Z.log2 (Zpos (Qden r)))%Z in
  if Qle_bool (pow2 a) r then a else (a - 1)%Z.

(** The exponent of the last place of the significand: 52 places below
    the binade, and never below that of the subnormals. *)
Definition ulp_exponent (q : Q) : Z := Z.max (ilog2 q - 52) (-1074).

(** A positive rational rounded to the nearest multiple of its last
    place, ties to even. *)
Definition round_magnitude (q : Q) : Q :=
  let e := ulp_exponent q in
  inject_Z (round_half_even (q / pow2 e)) * pow2 e.

Definition roundQ (q : Q) : Q :=
  match 0 ?= q with
  | Eq => 0
  | Lt => round_magnitude q
  | Gt => - round_magnitude (- q)
  end.

(** A rounded rational as a number: overflow gives an infinity. *)
Definition number_of_Q (v : Q) : number :=
  if Qle_bool (pow2 1024) v then PlusInfinity
  else if Qle_bool v (- pow2 1024) then MinusInfinity
  else Finite (Qred v).

(** The binary64 number nearest to a rational. *)
Definition round64 (q : Q) : number := number_of_Q (roundQ q).

(** The numbers that binary64 has: the infinities, [NaN], and the
    rationals that rounding leaves as they are. *)
Definition representable (x : number) : Prop :=
  match x with
  | Finite q => round64 q = Finite q
  | PlusInfinity | MinusInfinity => True
  | NotANumber => False
  end.

(** [x - y] *)
Definition sub (x y : number) : number :=
  match x, y with
  | NotANumber, _ | _, NotANumber => NotANumber
  | Finite a, Finite b => round64 (a - b)
  | PlusInfinity, PlusInfinity | MinusInfinity, MinusInfinity => NotANumber
  | PlusInfinity, _ | _, MinusInfinity => PlusInfinity
  | MinusInfinity, _ | _, PlusInfinity => MinusInfinity
  end.

(** [x * y] *)
Definition mul (x y : number) : number :=
  match x, y with
  | NotANumber, _ | _, NotANumber => NotANumber
  | Finite a, Finite b => round64 (a * b)
  | Finite a, PlusInfinity | PlusInfinity, Finite a =>
      match 0 ?= a with Lt => PlusInfinity | Gt => MinusInfinity | Eq => NotANumber end
  | Finite a, MinusInfinity | MinusInfinity, Finite a =>
      match 0 ?= a with Lt => MinusInfinity | Gt => PlusInfinity | Eq => NotANumber end
  | PlusInfinity, PlusInfinity | MinusInfinity, MinusInfinity => PlusInfinity
  | PlusInfinity, MinusInfinity | MinusInfinity, PlusInfinity => MinusInfinity
  end.

(** [x / y] *)
Definition div (x y : number) : number :=
  match x, y with
  | NotANumber, _ | _, NotANumber => NotANumber
  | Finite a, Finite b =>
      if Qeq_bool b 0
      then match 0 ?= a with Lt => PlusInfinity | Gt => MinusInfinity | Eq => NotANumber end
      else round64 (a / b)
  | Finite _, _ => Finite 0
  | PlusInfinity, Finite b => if Qle_bool 0 b then PlusInfinity else MinusInfinity
  | MinusInfinity, Finite b => if Qle_bool 0 b then MinusInfinity else PlusInfinity
  | _, _ => NotANumber
  end.

(** [x > y]: false as soon as one side is [NaN]. *)
Definition gt (x y : number) : bool :=
  match x, y with
  | NotANumber, _ | _, NotANumber => false
  | Finite a, Finite b => negb (Qle_bool a b)
  | PlusInfinity, PlusInfinity => false
  | PlusInfinity, _ => true
  | _, MinusInfinity => match x with MinusInfinity => false | _ => true end
  | _, _ => false
  end.

(** [x >= y]: false as soon as one side is [NaN]. *)
Definition ge (x y : number) : bool :=
  match x, y with
  | NotANumber, _ | _, NotANumber => false
  | Finite a, Finite b => Qle_bool b a
  | PlusInfinity, _ => true
  | _, MinusInfinity => true
  | _, _ => false
  end.

(** [x <= y] as a proposition. *)
Definition le (x y : number) : Prop := ge y x = true.

(** [Math.round(x)]: the integer [floor(x + 0.5)] of the exact sum, which
    binary64 has for every finite [x]; an infinity and [NaN] are
    returned as they are. *)
Definition Math_round (x : number) : number :=
  match x with
  | Finite q => Finite (inject_Z (Qfloor (q + (1 # 2))))
  | _ => x
  end.

(** [Math.max(x, y)]: [NaN] as soon as one side is [NaN]. *)
Definition Math_max (x y : number) : number :=
  match x, y with
  | NotANumber, _ | _, NotANumber => NotANumber
  | _, _ => if gt x y then x else y
  end.

(** The object returned by [makePrediction] (lines 113-118). *)
Record Prediction := {
  diagnosis : string;
  confidence : number;
  rawPrediction : number
}.

(** Line 110: [const isMalignant = confidence > 0.5]. *)
Definition isMalignant (confidence : number) : bool := gt confidence (Finite (1 # 2)).

(** Line 112: [const finalConfidence = isMalignant ? confidence : 1 - confidence]. *)
Definition finalConfidence (confidence : number) : number :=
  if isMalignant confidence then confidence else sub (Finite 1) confidence.

(** Lines 109-118 on the value [predictionData[0]], every operation
    being the binary64 one, in the order in which line 116 applies them:
    [Math.round(finalConfidence * 100 * 100) / 100]. *)
Definition interpret (confidence : number) : Prediction :=
  let isMalignant := isMalignant confidence in
  let diagnosis := if isMalignant then "Maligno"%string else "Benigno"%string in
  let finalConfidence := finalConfidence confidence in
  {| diagnosis := diagnosis;
     confidence := div (Math_round (mul (mul finalConfidence (Finite 100)) (Finite 100)))
                       (Finite 100);
     rawPrediction := confidence |}.

(** The binary64 number just below one half, [0.49999999999999994]. *)
Definition pred_half : Q := 9007199254740991 # 18014398509481984.

(** The binary64 number just above one half. *)
Definition above_half : Q := 4503599627370497 # 9007199254740992.

End Binary64.

(** ** The kernel's floating-point numbers

    The floating-point numbers of the kernel are binary64 values computed
    by the processor, as JavaScript numbers are.  They are used to test
    the arithmetic of [Binary64] on sample values. *)

Definition number_of_float (f : PrimFloat.float) : Binary64.number :=
  match FloatOps.Prim2SF f with
  | SpecFloat.S754_zero _ => Binary64.Finite 0
  | SpecFloat.S754_infinity false => Binary64.PlusInfinity
  | SpecFloat.S754_infinity true => Binary64.MinusInfinity
  | SpecFloat.S754_nan => Binary64.NotANumber
  | SpecFloat.S754_finite s m e =>
      Binary64.Finite (Qred ((if s then - 1 else 1) * inject_Z (Zpos m) * Binary64.pow2 e))
  end.

(** The float of an integer below [2^53] in absolute value. *)
Definition float_of_Z (n : Z) : PrimFloat.float :=
  if (0 <=? n)%Z then PrimFloat.of_uint63 (Uint63.of_Z n)
  else PrimFloat.opp (PrimFloat.of_uint63 (Uint63.of_Z (- n))).

(** The float nearest to [n / d]. *)
Definition float_of_ratio (n d : Z) : PrimFloat.float :=
  PrimFloat.div (float_of_Z n) (float_of_Z d).

(** [Math.round] on a float: from [2^52] on a float is an integer. *)
Definition float_Math_round (f : PrimFloat.float) : PrimFloat.float :=
  match number_of_float f with
  | Binary64.Finite q =>
      let k := Qfloor (q + (1 # 2)) in
      if (4503599627370496 <=? Z.abs k)%Z then f else float_of_Z k
  | _ => f
  end.

(** Lines 110-116 on floats: the label and the confidence. *)
Definition float_interpret (c : PrimFloat.float) : bool * PrimFloat.float :=
  let isMalignant := PrimFloat.ltb (float_of_ratio 1 2) c in
  let finalConfidence := if isMalignant then c else PrimFloat.sub (float_of_Z 1) c in
  let hundred := float_of_Z 100 in
  (isMalignant,
   PrimFloat.div
     (float_Math_round (PrimFloat.mul (PrimFloat.mul finalConfidence hundred) hundred))
     hundred).

Definition number_eqb (x y : Binary64.number) : bool :=
  match x, y with
  | Binary64.Finite a, Binary64.Finite b =>
      Z.eqb (Qnum a) (Qnum b) && Pos.eqb (Qden a) (Qden b)
  | Binary64.PlusInfinity, Binary64.PlusInfinity => true
  | Binary64.MinusInfinity, Binary64.MinusInfinity => true
  | Binary64.NotANumber, Binary64.NotANumber => true
  | _, _ => false
  end.

(** The operations of lines 110-116 give on the floats [a] and [b] what
    [Binary64] gives on their values. *)
Definition floats_agree (a b : PrimFloat.float) : bool :=
  let x := number_of_float a in
  let y := number_of_float b in
  number_eqb (number_of_float (PrimFloat.sub a b)) (Binary64.sub x y)
  && number_eqb (number_of_float (PrimFloat.sub b a)) (Binary64.sub y x)
  && number_eqb (number_of_float (PrimFloat.mul a b)) (Binary64.mul x y)
  && number_eqb (number_of_float (PrimFloat.div a b)) (Binary64.div x y)
  && Bool.eqb (PrimFloat.ltb b a) (Binary64.gt x y)
  && Bool.eqb (PrimFloat.leb b a) (Binary64.ge x y).

(** Lines 110-116 give on the float [c] the label and the confidence that
    [Binary64.interpret] gives on its value. *)
Definition interpret_agrees (c : PrimFloat.float) : bool :=
  let x := number_of_float c in
  Bool.eqb (fst (float_interpret c)) (Binary64.isMalignant x)
  && number_eqb (number_of_float (snd (float_interpret c)))
                (Binary64.confidence (Binary64.interpret x)).

(** Sample floats: scores in and out of range, the neighbours of one
    half, large, tiny and special values. *)
Definition sample_floats : list PrimFloat.float :=
  [float_of_ratio 2175 100000; float_of_ratio 1 2;
   PrimFloat.next_down (float_of_ratio 1 2); PrimFloat.next_up (float_of_ratio 1 2);
   float_of_ratio 1 10; float_of_ratio 9 10; float_of_ratio 3 2; float_of_ratio (- 1) 2;
   float_of_ratio 123456 1000000; float_of_ratio 50025 100000; float_of_ratio 50125 100000;
   float_of_ratio 1 3; float_of_Z 0; float_of_Z 1; float_of_Z 100;
   float_of_Z 9007199254740992;
   PrimFloat.next_up (float_of_Z 9007199254740992);
   PrimFloat.next_down PrimFloat.infinity; PrimFloat.next_up (float_of_Z 0);
   PrimFloat.infinity; PrimFloat.neg_infinity; PrimFloat.nan].

(** The second operands of lines 110-116, and a few others. *)
Definition sample_operands : list PrimFloat.float :=
  [float_of_Z 1; float_of_Z 100; float_of_ratio 1 2; float_of_ratio 1 3;
   float_of_Z 0; PrimFloat.infinity; PrimFloat.nan].

(** ** Reference notions used to state the base64 claim *)

(** A character of the standard base64 alphabet (RFC 4648, section 4). *)
Definition standard_base64_char (c : ascii) : bool :=
  let n := N_of_ascii c in
  (((65 <=? n) && (n <=? 90)) || ((97 <=? n) && (n <=? 122))
   || ((48 <=? n) && (n <=? 57)) || (n =? 43) || (n =? 47))%N.

(** Characters of the alphabet, closed by at most two ['='] of padding. *)
Fixpoint base64_body (s : string) : bool :=
  match s with
  | EmptyString => true
  | String c rest =>
      if (N_of_ascii c =? 61)%N
      then match rest with
           | EmptyString => true
           | String d EmptyString => (N_of_ascii d =? 61)%N
           | _ => false
           end
      else standard_base64_char c && base64_body rest
  end.

(** Valid base64 text: groups of four characters of the alphabet, the
    last group padded with ['=']. *)
Definition valid_base64 (s : string) : bool :=
  Nat.eqb (String.length s mod 4) 0 && base64_body s.

(** [with_noise t s]: the string [s] is the text [t] with characters
    inserted that belong to neither alphabet and are not ['=']. *)
Inductive with_noise : string -> string -> Prop :=
| noise_end : with_noise EmptyString EmptyString
| noise_keep (c : ascii) (t s : string) :
    with_noise t s -> with_noise (String c t) (String c s)
| noise_skip (c : ascii) (t s : string) :
    unbase64 c = None -> N_of_ascii c <> 61%N ->
    with_noise t s -> with_noise t (String c s).

(** ** Basic facts on the number model *)

Lemma js_gt_true (x y : Q) : js_gt x y = true <-> y < x.
Proof.
  unfold js_gt. rewrite negb_true_iff, <- not_true_iff_false, Qle_bool_iff.
  split; [apply Qnot_le_lt | apply Qlt_not_le].
Qed.

Lemma js_gt_false (x y : Q) : js_gt x y = false <-> x <= y.
Proof.
  unfold js_gt. rewrite negb_false_iff. apply Qle_bool_iff.
Qed.

Lemma isMalignant_spec (s : Q) :
  (isMalignant s = true /\ 0.5 < s) \/ (isMalignant s = false /\ s <= 0.5).
Proof.
  unfold isMalignant. destruct (js_gt s 0.5) eqn:E.
  - left. split; [reflexivity | now apply js_gt_true].
  - right. split; [reflexivity | now apply js_gt_false].
Qed.

Lemma Math_round_mono (x y : Q) : x <= y -> Math_round x <= Math_round y.
Proof.
  intros H. unfold Math_round. rewrite <- Zle_Qle.
  apply Qfloor_resp_le. now apply Qplus_le_l.
Qed.


#[global] Instance Math_round_comp : Proper (Qeq ==> Qeq) Math_round.
Proof.
  intros x y H. unfold Math_round.
  assert (E : x + (1 # 2) == y + (1 # 2)) by now rewrite H.
  now rewrite (Qfloor_comp _ _ E).
Qed.

#[global] Instance round2_comp : Proper (Qeq ==> Qeq) round2.
Proof. intros x y H. unfold round2. now rewrite H. Qed.

(** The rounded value is within half a unit of its argument. *)
Lemma Math_round_close (x : Q) :
  x - (1 # 2) < Math_round x /\ Math_round x <= x + (1 # 2).
Proof.
  unfold Math_round. split.
  - pose proof (Qlt_floor (x + (1 # 2))) as H.
    rewrite inject_Z_plus in H. change (inject_Z 1) with 1 in H. lra.
  - apply Qfloor_le.
Qed.

(** ** The final confidence never drops below one half *)

Lemma finalConfidence_max (s : Q) : finalConfidence s == Qmax s (1 - s).
Proof.
  unfold finalConfidence.
  destruct (isMalignant_spec s) as [[-> H] | [-> H]].
  - symmetry. apply Q.max_l. lra.
  - symmetry. apply Q.max_r. lra.
Qed.

Lemma finalConfidence_half (s : Q) : 0.5 <= finalConfidence s.
Proof.
  unfold finalConfidence.
  destruct (isMalignant_spec s) as [[-> H] | [-> H]]; lra.
Qed.

Lemma percentage_ge_50 (s : Q) : 50 <= percentage s.
Proof.
  unfold percentage. pose proof (finalConfidence_half s). lra.
Qed.

Lemma confidence_round2 (s : Q) : confidence (interpret s) == round2 (percentage s).
Proof. reflexivity. Qed.

Lemma round2_mono (p q : Q) : p <= q -> round2 p <= round2 q.
Proof.
  intros H. unfold round2.
  apply Qmult_le_compat_r; [|discriminate].
  apply Math_round_mono. apply Qmult_le_compat_r; [exact H | discriminate].
Qed.

Lemma round2_50 : round2 50 == 50.
Proof. reflexivity. Qed.

Lemma round2_100 : round2 100 == 100.
Proof. reflexivity. Qed.

Lemma confidence_ge_50 (s : Q) : 50 <= confidence (interpret s).
Proof.
  rewrite confidence_round2, <- round2_50.
  apply round2_mono, percentage_ge_50.
Qed.


Lemma finalConfidence_malignant (s : Q) :
  0.5 < s -> isMalignant s = true /\ finalConfidence s = s.
Proof.
  intros H. unfold finalConfidence.
  destruct (isMalignant_spec s) as [[-> _] | [_ H']]; [auto | lra].
Qed.

Lemma finalConfidence_benign (s : Q) :
  s <= 0.5 -> isMalignant s = false /\ finalConfidence s = 1 - s.
Proof.
  intros H. unfold finalConfidence.
  destruct (isMalignant_spec s) as [[_ H'] | [-> _]]; [lra | auto].
Qed.

Lemma diagnosis_malignant (s : Q) : 0.5 < s -> diagnosis (interpret s) = "Maligno".
Proof.
  intros H. destruct (finalConfidence_malignant s H) as [E _].
  unfold interpret. simpl. now rewrite E.
Qed.

Lemma diagnosis_benign (s : Q) : s <= 0.5 -> diagnosis (interpret s) = "Benigno".
Proof.
  intros H. destruct (finalConfidence_benign s H) as [E _].
  unfold interpret. simpl. now rewrite E.
Qed.




(** ** The result interpreter over exact rationals: claims C1 and C6 *)






Lemma finalConfidence_symmetric (x : Q) :
  ~ x == 0.5 -> finalConfidence x == finalConfidence (1 - x).
Proof.
  intros Hne.
  destruct (Qlt_le_dec 0.5 x) as [H | H].
  - destruct (finalConfidence_malignant x H) as [_ ->].
    destruct (finalConfidence_benign (1 - x)) as [_ ->]; [lra | ring].
  - assert (H' : x < 0.5) by (apply Qle_lteq in H; destruct H; [assumption | contradiction]).
    destruct (finalConfidence_benign x H) as [_ ->].
    destruct (finalConfidence_malignant (1 - x)) as [_ ->]; [lra | reflexivity].
Qed.

(** Over exact rationals, every score [x] other than 0.5 and its mirror
    image [1 - x] are given opposite labels and equal confidences.  The
    subtraction is rounded in binary64, where this fails next to 0.5 (see
    the section on claim C7). *)
Lemma exact_symmetry (x : Q) :
  ~ x == 0.5 ->
  ((diagnosis (interpret x) = "Maligno" /\ diagnosis (interpret (1 - x)) = "Benigno") \/
   (diagnosis (interpret x) = "Benigno" /\ diagnosis (interpret (1 - x)) = "Maligno")) /\
  diagnosis (interpret x) <> diagnosis (interpret (1 - x)) /\
  confidence (interpret x) == confidence (interpret (1 - x)).
Proof.
  intros Hne.
  assert (Hlab :
    (diagnosis (interpret x) = "Maligno" /\ diagnosis (interpret (1 - x)) = "Benigno") \/
    (diagnosis (interpret x) = "Benigno" /\ diagnosis (interpret (1 - x)) = "Maligno")).
  { destruct (Qlt_le_dec 0.5 x) as [H | H].
    - left. split; [now apply diagnosis_malignant | apply diagnosis_benign; lra].
    - assert (H' : x < 0.5)
        by (apply Qle_lteq in H; destruct H; [assumption | contradiction]).
      right. split; [now apply diagnosis_benign | apply diagnosis_malignant; lra]. }
  split; [exact Hlab|]. split.
  - destruct Hlab as [[-> ->] | [-> ->]]; discriminate.
  - rewrite !confidence_round2. apply round2_comp. unfold percentage.
    now rewrite (finalConfidence_symmetric x Hne).
Qed.

(** On a value that is not negative, [Math.round] rounds ties away from
    zero. *)
Lemma Math_round_half_away (x : Q) :
  0 <= x -> Math_round x = inject_Z (round_half_away x).
Proof.
  intros H. unfold Math_round, round_half_away.
  apply Qle_bool_iff in H. now rewrite H.
Qed.

(** On negative values the two differ: [Math.round(-2.5)] is [-2]. *)
Remark Math_round_negative_tie :
  Math_round (- 2.5) == - 2 /\ inject_Z (round_half_away (- 2.5)) == - 3.
Proof. split; reflexivity. Qed.

(** Ties are not sent to the even neighbour: the score 0.50125 has the
    percentage 50.125 and the confidence 50.13, where rounding to even
    would give 50.12. *)
Remark confidence_tie_not_to_even :
  percentage 0.50125 == 50.125 /\
  confidence (interpret 0.50125) == 50.13 /\
  round2_half_even (percentage 0.50125) == 50.12.
Proof. repeat split. Qed.

(** Over exact rationals the returned confidence is the percentage
    rounded to two decimals, a half-way value being rounded away from
    zero: the confidence times 100 is an integer, it lies within 0.005 of
    the percentage, and it is the half-away-from-zero rounding of it.  The
    products of line 116 are rounded in binary64 (see the section on
    claim C8). *)
Lemma exact_confidence_two_decimals (score : Q) :
  confidence (interpret score) == round2_half_away (percentage score) /\
  (exists n : Z, confidence (interpret score) * 100 == inject_Z n) /\
  percentage score - (1 # 200) < confidence (interpret score) /\
  confidence (interpret score) <= percentage score + (1 # 200).
Proof.
  pose proof (percentage_ge_50 score) as H50.
  pose proof (Math_round_close (percentage score * 100)) as [Hlo Hhi].
  rewrite confidence_round2. unfold round2, round2_half_away.
  split; [|split; [|split]].
  - rewrite Math_round_half_away by lra. reflexivity.
  - exists (Qfloor (percentage score * 100 + (1 # 2))).
    rewrite confidence_round2. unfold round2, Math_round. field.
  - apply Qlt_shift_div_l; [reflexivity | lra].
  - apply Qle_shift_div_r; [reflexivity | lra].
Qed.

(** Over exact rationals the percentage is [max(score, 1 - score) * 100],
    and the returned confidence is at least 50 and so never negative.  A
    score can also be [NaN] (see the section on claim C9). *)
Lemma exact_confidence_at_least_50 (score : Q) :
  percentage score == Qmax score (1 - score) * 100 /\
  50 <= confidence (interpret score) /\
  ~ confidence (interpret score) < 0.
Proof.
  pose proof (confidence_ge_50 score) as H.
  split; [|split].
  - unfold percentage. now rewrite finalConfidence_max.
  - exact H.
  - lra.
Qed.

(** ** The conversion loop of [preprocessImage] *)

Local Open Scope nat_scope.

Lemma div255_in_range (data : Buffer) (i : nat) :
  i < length data ->
  exists b, data !! i = Some b /\ div255 data i = Num (byte_to_Q b / 255).
Proof.
  intros H. destruct (lookup_lt_is_Some_2 data i H) as [b Hb].
  exists b. split; [exact Hb|]. unfold div255. now rewrite Hb.
Qed.

Lemma byte_to_Q_range (b : byte) :
  (0 <= byte_to_Q b / 255 /\ byte_to_Q b / 255 <= 1)%Q.
Proof.
  pose proof (Byte.to_N_bounded b) as Hb.
  unfold byte_to_Q. split.
  - apply Qle_shift_div_l; [reflexivity|].
    rewrite Qmult_0_l. change 0%Q with (inject_Z 0). rewrite <- Zle_Qle. lia.
  - apply Qle_shift_div_r; [reflexivity|].
    rewrite Qmult_1_l. change 255%Q with (inject_Z 255). rewrite <- Zle_Qle. lia.
Qed.

Lemma div3_index (j c : nat) : c < 3 -> (3 * j + c) / 3 = j /\ (3 * j + c) mod 3 = c.
Proof.
  intros Hc. split.
  - symmetry. apply (Nat.div_unique _ 3 j c); lia.
  - symmetry. apply (Nat.mod_unique _ 3 j c); lia.
Qed.

(** The loop started at pixel [j] keeps the elements before [3 * j] and
    fills every later one from the matching colour byte. *)
Lemma rgb_loop_spec (n : nat) (data : Buffer) :
  length data = 4 * n ->
  forall fuel j rgbData,
    length rgbData = 3 * n -> j <= n -> n - j <= fuel ->
    let out := rgb_loop fuel data (4 * j) rgbData (3 * j) in
    length out = 3 * n /\
    (forall k, k < 3 * j -> out !! k = rgbData !! k) /\
    (forall k, 3 * j <= k < 3 * n -> out !! k = Some (div255 data (source_index k))).
Proof.
  intros Hdata. induction fuel as [|fuel IH]; intros j rgbData Hlen Hj Hfuel out.
  - subst out. simpl. repeat split; auto. intros k Hk. lia.
  - subst out. cbn [rgb_loop].
    destruct (Nat.ltb_spec (4 * j) (length data)) as [Hlt | Hge].
    + assert (Hjn : j < n) by lia.
      set (r1 := <[3 * j := div255 data (4 * j)]> rgbData).
      set (r2 := <[3 * j + 1 := div255 data (4 * j + 1)]> r1).
      set (r3 := <[3 * j + 2 := div255 data (4 * j + 2)]> r2).
      assert (Hl1 : length r1 = 3 * n) by (subst r1; now rewrite length_insert).
      assert (Hl2 : length r2 = 3 * n) by (subst r2; now rewrite length_insert).
      assert (Hl3 : length r3 = 3 * n) by (subst r3; now rewrite length_insert).
      replace (4 * j + 4) with (4 * S j) by lia.
      replace (3 * j + 3) with (3 * S j) by lia.
      destruct (IH (S j) r3 Hl3 ltac:(lia) ltac:(lia)) as (Hlen' & Hkeep & Hfill).
      split; [exact Hlen'|]. split.
      * intros k Hk. rewrite Hkeep by lia. subst r3 r2 r1.
        rewrite !list_lookup_insert_ne by lia. reflexivity.
      * intros k Hk.
        destruct (Nat.le_gt_cases (3 * S j) k) as [Hhigh | Hlow].
        { apply Hfill. lia. }
        rewrite Hkeep by lia.
        assert (Hc : k = 3 * j + 0 \/ k = 3 * j + 1 \/ k = 3 * j + 2) by lia.
        unfold source_index.
        destruct Hc as [-> | [-> | ->]].
        -- destruct (div3_index j 0 ltac:(lia)) as [-> ->].
           subst r3 r2. rewrite !list_lookup_insert_ne by lia.
           subst r1. rewrite !Nat.add_0_r. rewrite list_lookup_insert_eq by lia. reflexivity.
        -- destruct (div3_index j 1 ltac:(lia)) as [-> ->].
           subst r3. rewrite list_lookup_insert_ne by lia.
           subst r2. rewrite list_lookup_insert_eq by lia. reflexivity.
        -- destruct (div3_index j 2 ltac:(lia)) as [-> ->].
           subst r3. rewrite list_lookup_insert_eq by lia. reflexivity.
    + repeat split; auto. intros k Hk. lia.
Qed.

(** On a buffer of four bytes per pixel the conversion fills the whole
    array: element [k] is the colour byte at [source_index k] divided by
    255. *)
Lemma rgba_to_rgb_spec (w h : nat) (data : Buffer) :
  length data = w * h * 4 ->
  length (rgba_to_rgb w h data) = w * h * 3 /\
  forall k, k < w * h * 3 ->
    exists b, data !! source_index k = Some b /\
              rgba_to_rgb w h data !! k = Some (Num (byte_to_Q b / 255)).
Proof.
  intros Hdata. unfold rgba_to_rgb.
  assert (Hd : length data = 4 * (w * h)) by lia.
  pose proof (rgb_loop_spec (w * h) data Hd (length data) 0
                (replicate (w * h * 3) (Num 0))) as Hspec.
  rewrite length_replicate in Hspec.
  specialize (Hspec ltac:(lia) ltac:(lia) ltac:(lia)).
  rewrite !Nat.mul_0_r in Hspec. cbv zeta in Hspec.
  destruct Hspec as (Hlen & _ & Hfill).
  split; [lia|].
  intros k Hk.
  assert (Hsrc : source_index k < length data).
  { unfold source_index.
    pose proof (Nat.mod_upper_bound k 3 ltac:(lia)).
    pose proof (Nat.Div0.div_lt_upper_bound k 3 (w * h) ltac:(lia)). lia. }
  destruct (div255_in_range data _ Hsrc) as (b & Hb & Hdiv).
  exists b. split; [exact Hb|].
  rewrite Hfill by lia. now rewrite Hdiv.
Qed.

(** The alpha byte of a pixel, at an index congruent to 3 modulo 4, is
    never a source index. *)
Lemma source_index_not_alpha (k : nat) : source_index k mod 4 <> 3.
Proof.
  unfold source_index.
  pose proof (Nat.mod_upper_bound k 3 ltac:(lia)) as Hc.
  rewrite Nat.add_comm, Nat.mul_comm, Nat.Div0.mod_add.
  rewrite Nat.mod_small by lia. lia.
Qed.

(** ** The components *)

Section ServerProofs.

Context {L : Libraries}.

(** [preprocessImage] calls the decoder once, and throws nothing but its
    own error. *)
Lemma preprocessImage_unfold (imageBuffer : Buffer) (w : World) :
  preprocessImage imageBuffer w =
  (match Jimp_read imageBuffer with
   | Return image =>
       let image := Jimp_resize 224 224 image in
       match tf_tensor3d (rgba_to_rgb (width image) (height image) (data image))
               [224; 224; 3] with
       | Return t => Return (expandDims0 t)
       | Throw _ => Throw image_processing_error
       end
   | Throw _ => Throw image_processing_error
   end,
   record_call (JimpRead imageBuffer) w).
Proof.
  unfold preprocessImage, try_catch, bind, call_Jimp_read, lift, ret, throw.
  destruct (Jimp_read imageBuffer) as [image | e]; [|reflexivity].
  destruct (tf_tensor3d _ _); reflexivity.
Qed.

Lemma preprocessImage_world (imageBuffer : Buffer) (w : World) :
  snd (preprocessImage imageBuffer w) = record_call (JimpRead imageBuffer) w.
Proof. now rewrite preprocessImage_unfold. Qed.

Lemma preprocessImage_throws (imageBuffer : Buffer) (w w' : World) (e : Error) :
  preprocessImage imageBuffer w = (Throw e, w') ->
  e = image_processing_error /\ w' = record_call (JimpRead imageBuffer) w.
Proof.
  rewrite preprocessImage_unfold.
  destruct (Jimp_read imageBuffer) as [image | e0].
  - cbv zeta. destruct (tf_tensor3d _ _); intros H; inversion H; auto.
  - intros H; inversion H; auto.
Qed.

Lemma preprocessImage_undecodable (imageBuffer : Buffer) (w : World) (e : Error) :
  Jimp_read imageBuffer = Throw e ->
  preprocessImage imageBuffer w =
  (Throw image_processing_error, record_call (JimpRead imageBuffer) w).
Proof. intros H. now rewrite preprocessImage_unfold, H. Qed.

(** [makePrediction] calls the model at most once, and throws nothing
    but its own error. *)
Lemma makePrediction_unfold (imageTensor : Tensor) (w : World) :
  makePrediction imageTensor w =
  if isModelLoaded w then
    match model w with
    | Some m =>
        (match predict m imageTensor with
         | Return confidence => Return (interpret confidence)
         | Throw _ => Throw prediction_error
         end,
         record_call (ModelPredict imageTensor) w)
    | None => (Throw prediction_error, w)
    end
  else (Throw prediction_error, w).
Proof.
  unfold makePrediction, try_catch, bind, gets, call_model_predict, ret, throw.
  destruct (isModelLoaded w); [|reflexivity].
  cbn [negb]. destruct (model w) as [m|]; [|reflexivity].
  destruct (predict m imageTensor); reflexivity.
Qed.

Lemma makePrediction_throws (imageTensor : Tensor) (w w' : World) (e : Error) :
  makePrediction imageTensor w = (Throw e, w') ->
  e = prediction_error /\
  (w' = w \/ w' = record_call (ModelPredict imageTensor) w).
Proof.
  rewrite makePrediction_unfold.
  destruct (isModelLoaded w); [destruct (model w) as [m|]|].
  - destruct (predict m imageTensor); intros H; inversion H; auto.
  - intros H; inversion H; auto.
  - intros H; inversion H; auto.
Qed.

Lemma makePrediction_not_loaded (imageTensor : Tensor) (w : World) :
  isModelLoaded w = false ->
  makePrediction imageTensor w = (Throw prediction_error, w).
Proof. intros H. now rewrite makePrediction_unfold, H. Qed.

(** ** The request handlers *)

(** Past the readiness gate the pipeline is the composition of the two
    components, an exception of either becoming a 500 response that
    carries its message. *)
Lemma process_loaded (encoded : Buffer) (w : World) :
  isModelLoaded w = true ->
  process encoded w =
  match preprocessImage encoded w with
  | (Return imageTensor, w1) =>
      match makePrediction imageTensor w1 with
      | (Return result, w2) => (Return (prediction_response result), w2)
      | (Throw e, w2) => (Return (internal_error e), w2)
      end
  | (Throw e, w1) => (Return (internal_error e), w1)
  end.
Proof.
  intros H. unfold process, upload_route, try_catch, bind, gets, ret.
  rewrite H. cbn [negb].
  destruct (preprocessImage encoded w) as [[t | e] w1]; [|reflexivity].
  destruct (makePrediction t w1) as [[r | e] w2]; reflexivity.
Qed.

Lemma process_not_loaded (encoded : Buffer) (w : World) :
  isModelLoaded w = false ->
  process encoded w = (Return model_unavailable, w).
Proof.
  intros H. unfold process, upload_route, try_catch, bind, gets, ret.
  now rewrite H.
Qed.

Lemma upload_route_not_loaded (file : option Buffer) (w : World) :
  isModelLoaded w = false ->
  upload_route file w = (Return model_unavailable, w).
Proof.
  intros H. unfold upload_route, try_catch, bind, gets, ret.
  now rewrite H.
Qed.

Lemma predict_route_not_loaded (image : JsValue) (w : World) :
  isModelLoaded w = false ->
  predict_route image w = (Return model_unavailable, w).
Proof.
  intros H. unfold predict_route, try_catch, bind, gets, ret.
  now rewrite H.
Qed.

(** On a string that is not empty the base64 handler runs the pipeline
    on the decoded bytes. *)
Lemma predict_route_string (s : string) (w : World) :
  s <> EmptyString ->
  predict_route (JsString s) w = process (Buffer_from_base64 (strip_data_url s)) w.
Proof.
  intros Hs. unfold process, upload_route, predict_route.
  destruct s as [|c s']; [contradiction|]. reflexivity.
Qed.


Lemma loadModel_failure (w : World) (e : Error) :
  tf_loadGraphModel "model.json" = Throw e ->
  isModelLoaded (snd (loadModel w)) = false.
Proof. intros H. unfold loadModel. now rewrite H. Qed.

End ServerProofs.

Lemma count_predict_app (l1 l2 : list Event) :
  count_predict (l1 ++ l2)%list = count_predict l1 + count_predict l2.
Proof.
  induction l1 as [|[b | t] l1 IH]; simpl; [reflexivity | exact IH | now rewrite IH].
Qed.

(** A valid image is turned into a tensor of the fixed shape whose
    elements are the colour bytes of the resized bitmap over 255. *)
Lemma preprocessImage_decodable {L : Libraries}
    (imageBuffer : Buffer) (image : Bitmap) (w : World) :
  resize_contract L ->
  Jimp_read imageBuffer = Return image ->
  exists t,
    preprocessImage imageBuffer w = (Return t, record_call (JimpRead imageBuffer) w) /\
    shape t = [1; 224; 224; 3] /\
    length (values t) = 224 * 224 * 3 /\
    forall k, k < 224 * 224 * 3 ->
      exists b, data (Jimp_resize 224 224 image) !! source_index k = Some b /\
                values t !! k = Some (Num (byte_to_Q b / 255)).
Proof.
  intros Hresize Hread.
  destruct (Hresize 224 224 image) as (Hw & Hh & Hd).
  destruct (rgba_to_rgb_spec 224 224 _ Hd) as (Hlen & Helem).
  rewrite preprocessImage_unfold, Hread. cbv zeta. rewrite Hw, Hh.
  unfold tf_tensor3d.
  assert (Heq : (length (rgba_to_rgb 224 224 (data (Jimp_resize 224 224 image)))
                 =? foldr Nat.mul 1 [224; 224; 3]) = true).
  { apply Nat.eqb_eq. rewrite Hlen.
    change (foldr Nat.mul 1 [224; 224; 3]) with (224 * (224 * (3 * 1))). lia. }
  rewrite Heq.
  eexists. split; [reflexivity|].
  split; [reflexivity|]. split; [exact Hlen | exact Helem].
Qed.

Lemma mjoin_replicate_length {A} (n : nat) (l : list A) :
  length (mjoin (replicate n l)) = n * length l.
Proof.
  induction n as [|n IH]; [reflexivity|].
  change (mjoin (replicate (S n) l)) with (l ++ mjoin (replicate n l))%list.
  rewrite length_app, IH. lia.
Qed.

Lemma sample_resize_contract : resize_contract sample_libraries.
Proof.
  intros w h img. repeat split.
  change (data (Jimp_resize w h img)) with
    (mjoin (replicate (w * h)
       [nth 0 (data img) x00; nth 1 (data img) x00;
        nth 2 (data img) x00; nth 3 (data img) x00])).
  rewrite mjoin_replicate_length. reflexivity.
Qed.

(** ** The pipeline: claims C2, C3, C4, C5 *)

(** C2.  For every buffer that the decoder accepts, whatever the size of
    the decoded image, [preprocessImage] returns a tensor of shape
    (1, 224, 224, 3) with exactly 224 * 224 * 3 elements; element [k] is
    the byte of channel [k mod 3] of pixel [k / 3] of the resized bitmap
    divided by 255, hence in [0, 1], and the alpha byte of a pixel is
    never read into the tensor. *)
Theorem preprocessImage_tensor {L : Libraries}
    (imageBuffer : Buffer) (image : Bitmap) (w : World) :
  resize_contract L ->
  Jimp_read imageBuffer = Return image ->
  exists t,
    preprocessImage imageBuffer w = (Return t, record_call (JimpRead imageBuffer) w) /\
    shape t = [1; 224; 224; 3] /\
    length (values t) = 224 * 224 * 3 /\
    forall k, k < 224 * 224 * 3 ->
      exists b, data (Jimp_resize 224 224 image) !! source_index k = Some b /\
                source_index k mod 4 <> 3 /\
                values t !! k = Some (Num (byte_to_Q b / 255)) /\
                (0 <= byte_to_Q b / 255 /\ byte_to_Q b / 255 <= 1)%Q.
Proof.
  intros Hresize Hread.
  destruct (preprocessImage_decodable imageBuffer image w Hresize Hread)
    as (t & Hrun & Hshape & Hlen & Helem).
  exists t. repeat (split; [assumption|]).
  intros k Hk. destruct (Helem k Hk) as (b & Hb & Hv).
  exists b. split; [exact Hb|]. split; [apply source_index_not_alpha|].
  split; [exact Hv | apply byte_to_Q_range].
Qed.

(** The theorem on a buffer the sample decoder accepts. *)
Lemma preprocessImage_tensor_witness :
  exists t,
    preprocessImage (L := sample_libraries) [x89; x0a; x14; x1e; xff] initial_world
      = (Return t, record_call (JimpRead [x89; x0a; x14; x1e; xff]) initial_world) /\
    shape t = [1; 224; 224; 3] /\
    length (values t) = 224 * 224 * 3.
Proof.
  destruct (preprocessImage_tensor (L := sample_libraries)
              [x89; x0a; x14; x1e; xff]
              {| width := 1; height := 1; data := [x0a; x14; x1e; xff] |}
              initial_world sample_resize_contract eq_refl)
    as (t & Hrun & Hshape & Hlen & _).
  exists t. auto.
Defined.

(** C3 (as amended).  When the model is loaded, every input whose bytes
    the decoder rejects makes the pipeline fail with the decode failure
    of [preprocessImage], reported as a 500 response with the message of
    that error, through either handler; the decoder is called once and the
    model is not called. *)
Theorem undecodable_image_fails {L : Libraries}
    (encoded : Buffer) (w : World) (e : Error) :
  isModelLoaded w = true ->
  Jimp_read encoded = Throw e ->
  process encoded w =
    (Return (internal_error image_processing_error),
     record_call (JimpRead encoded) w) /\
  (forall s, s <> EmptyString -> Buffer_from_base64 (strip_data_url s) = encoded ->
     predict_route (JsString s) w =
       (Return (internal_error image_processing_error),
        record_call (JimpRead encoded) w)) /\
  calls (snd (process encoded w)) = (calls w ++ [JimpRead encoded])%list /\
  count_predict (calls (snd (process encoded w))) = count_predict (calls w).
Proof.
  intros Hloaded Hread.
  assert (Hrun : process encoded w =
                 (Return (internal_error image_processing_error),
                  record_call (JimpRead encoded) w)).
  { rewrite (process_loaded _ _ Hloaded).
    now rewrite (preprocessImage_undecodable _ _ _ Hread). }
  split; [exact Hrun|]. split.
  - intros s Hs Hdec. rewrite (predict_route_string _ _ Hs), Hdec. exact Hrun.
  - rewrite Hrun. cbn [snd record_call calls]. split; [reflexivity|].
    rewrite count_predict_app. simpl. lia.
Qed.

(** The theorem on the empty buffer, with the model loaded. *)
Lemma undecodable_image_fails_witness :
  process (L := sample_libraries) [] loaded_world =
    (Return (internal_error image_processing_error),
     record_call (JimpRead []) loaded_world).
Proof.
  exact (proj1 (undecodable_image_fails (L := sample_libraries) [] loaded_world
                  {| message := "Could not find MIME for Buffer" |}
                  eq_refl eq_refl)).
Defined.

(** C3, the claim as stated fails: while the model is not loaded, bytes
    that are not an image are answered with the 503 of the readiness gate,
    not with the decode failure. *)
Lemma undecodable_while_not_loaded :
  @Jimp_read sample_libraries [] =
    Throw {| message := "Could not find MIME for Buffer" |} /\
  isModelLoaded initial_world = false /\
  process (L := sample_libraries) [] initial_world =
    (Return model_unavailable, initial_world) /\
  model_unavailable <> internal_error image_processing_error.
Proof.
  repeat split. discriminate.
Qed.

(** C4.  While the model is not loaded (at start, or once a load has
    failed), every request to either handler is answered at once with
    the 503 response; the state is left as it was, so neither the decoder
    nor the model has been called.  [makePrediction] itself refuses to run
    without calling the model. *)
Theorem not_loaded_fails_fast {L : Libraries} (w : World) :
  isModelLoaded w = false ->
  (forall image, predict_route image w = (Return model_unavailable, w)) /\
  (forall file, upload_route file w = (Return model_unavailable, w)) /\
  (forall encoded, process encoded w = (Return model_unavailable, w)) /\
  (forall imageTensor, makePrediction imageTensor w = (Throw prediction_error, w)) /\
  isModelLoaded initial_world = false /\
  (forall w0 e, tf_loadGraphModel "model.json" = Throw e ->
     isModelLoaded (snd (loadModel w0)) = false).
Proof.
  intros H. repeat split.
  - intros image. now apply predict_route_not_loaded.
  - intros file. now apply upload_route_not_loaded.
  - intros encoded. now apply process_not_loaded.
  - intros t. now apply makePrediction_not_loaded.
  - intros w0 e. apply loadModel_failure.
Qed.

(** The theorem in the state reached when the load has failed. *)
Lemma not_loaded_fails_fast_witness :
  let w := snd (loadModel (L := broken_libraries) initial_world) in
  isModelLoaded w = false /\
  process (L := broken_libraries) [x89; x0a; x14; x1e; xff] w =
    (Return model_unavailable, w) /\
  calls w = [].
Proof.
  intros w. split; [reflexivity|]. split; [|reflexivity].
  destruct (not_loaded_fails_fast (L := broken_libraries) w eq_refl)
    as (_ & _ & Hp & _).
  apply Hp.
Defined.

(** C5.  Past the readiness gate, a failure of a component reaches the
    client with the message the component threw, unchanged, inside the 500
    response: the decode failure of [preprocessImage] and the inference
    failure of [makePrediction] stay distinct.  The pipeline stops at the
    first failure and retries nothing: on a decode failure the decoder has
    been called once and the model not at all, on an inference failure the
    decoder once and the model at most once.  The base64 handler runs
    the same pipeline on the decoded bytes. *)
Theorem component_failure_propagates {L : Libraries} (encoded : Buffer) (w : World) :
  isModelLoaded w = true ->
  (forall e w1,
     preprocessImage encoded w = (Throw e, w1) ->
     process encoded w = (Return (internal_error e), w1) /\
     e = image_processing_error /\
     calls w1 = (calls w ++ [JimpRead encoded])%list) /\
  (forall t w1 e w2,
     preprocessImage encoded w = (Return t, w1) ->
     makePrediction t w1 = (Throw e, w2) ->
     process encoded w = (Return (internal_error e), w2) /\
     e = prediction_error /\
     (calls w2 = (calls w ++ [JimpRead encoded])%list \/
      calls w2 = (calls w ++ [JimpRead encoded; ModelPredict t])%list)) /\
  (forall s, s <> EmptyString -> Buffer_from_base64 (strip_data_url s) = encoded ->
     predict_route (JsString s) w = process encoded w) /\
  internal_error image_processing_error <> internal_error prediction_error.
Proof.
  intros Hloaded. split; [|split; [|split]].
  - intros e w1 Hpre.
    rewrite (process_loaded _ _ Hloaded), Hpre.
    destruct (preprocessImage_throws _ _ _ _ Hpre) as [-> ->].
    repeat split.
  - intros t w1 e w2 Hpre Hmake.
    rewrite (process_loaded _ _ Hloaded), Hpre, Hmake.
    pose proof (preprocessImage_world encoded w) as Hw1.
    rewrite Hpre in Hw1. cbn [snd] in Hw1. subst w1.
    destruct (makePrediction_throws _ _ _ _ Hmake) as [-> [-> | ->]].
    + repeat split. left. reflexivity.
    + repeat split. right. cbn [record_call calls].
      now rewrite <- app_assoc.
  - intros s Hs Hdec. now rewrite (predict_route_string _ _ Hs), Hdec.
  - discriminate.
Qed.

(** The theorem on the empty buffer, which the sample decoder rejects, and
    on a valid buffer sent to a model that throws. *)
Lemma component_failure_propagates_witness :
  process (L := sample_libraries) [] loaded_world =
    (Return (internal_error image_processing_error),
     record_call (JimpRead []) loaded_world) /\
  exists w2,
    process (L := sample_libraries) [x89; x0a; x14; x1e; xff] failing_world =
      (Return (internal_error prediction_error), w2).
Proof.
  split.
  - destruct (component_failure_propagates (L := sample_libraries) [] loaded_world eq_refl)
      as (Hdecode & _).
    destruct (Hdecode image_processing_error (record_call (JimpRead []) loaded_world))
      as (Hrun & _).
    + apply (preprocessImage_undecodable (L := sample_libraries) [] loaded_world
               {| message := "Could not find MIME for Buffer" |}).
      reflexivity.
    + exact Hrun.
  - destruct (preprocessImage_decodable (L := sample_libraries)
                [x89; x0a; x14; x1e; xff]
                {| width := 1; height := 1; data := [x0a; x14; x1e; xff] |}
                failing_world sample_resize_contract eq_refl)
      as (t & Hpre & _).
    destruct (component_failure_propagates (L := sample_libraries)
                [x89; x0a; x14; x1e; xff] failing_world eq_refl)
      as (_ & Hinfer & _).
    eexists.
    refine (proj1 (Hinfer t _ prediction_error _ Hpre _)).
    rewrite makePrediction_unfold. reflexivity.
Defined.

(** The [catch] of lines 169-174 can be reached, by a field that is not a
    string. *)
Remark invalid_base64_reachable :
  predict_route (L := sample_libraries) (JsNumber 3) loaded_world =
    (Return invalid_base64, loaded_world).
Proof. reflexivity. Qed.

(** ** Base64: the client's encoding against the server's decoding *)

Lemma base64_char_nat (n : nat) :
  n < 64 ->
  unbase64 (base64_char (N.of_nat n)) = Some (N.of_nat n) /\
  N_of_ascii (base64_char (N.of_nat n)) <> 61%N /\
  N_of_ascii (base64_char (N.of_nat n)) <> 58%N.
Proof.
  intros H.
  do 64 (destruct n as [|n];
         [repeat split; try reflexivity; intros Hc; vm_compute in Hc; discriminate Hc|]).
  lia.
Qed.

Lemma base64_char_legal (v : N) :
  (v < 64)%N ->
  unbase64 (base64_char v) = Some v /\
  N_of_ascii (base64_char v) <> 61%N /\
  N_of_ascii (base64_char v) <> 58%N.
Proof.
  intros H. rewrite <- (N2Nat.id v). apply base64_char_nat. lia.
Qed.

Lemma sextets_base64_char (v : N) (rest : string) :
  (v < 64)%N -> sextets (String (base64_char v) rest) = v :: sextets rest.
Proof.
  intros H. destruct (base64_char_legal v H) as (Hv & Hpad & _).
  cbn [sextets]. apply N.eqb_neq in Hpad. now rewrite Hpad, Hv.
Qed.

Lemma byte_of_N_to_N (x : N) (b : byte) :
  (x mod 256 = Byte.to_N b)%N -> byte_of_N x = b.
Proof.
  intros H. unfold byte_of_N. now rewrite H, Byte.of_to_N.
Qed.

Ltac byte_arith :=
  zify; Z.to_euclidean_division_equations; lia.

Lemma sextet_bounds (n1 n2 n3 : N) :
  (n1 < 256 -> n2 < 256 -> n3 < 256 ->
   n1 / 4 < 64 /\ n1 mod 4 * 16 + n2 / 16 < 64 /\
   n2 mod 16 * 4 + n3 / 64 < 64 /\ n3 mod 64 < 64 /\
   n1 mod 4 * 16 < 64 /\ n2 mod 16 * 4 < 64)%N.
Proof. intros. byte_arith. Qed.

Lemma first_byte (n1 n2 : N) :
  (n1 < 256 -> n2 < 256 ->
   (n1 / 4 * 4 + (n1 mod 4 * 16 + n2 / 16) / 16) mod 256 = n1)%N.
Proof. intros. byte_arith. Qed.

Lemma second_byte (n1 n2 n3 : N) :
  (n1 < 256 -> n2 < 256 -> n3 < 256 ->
   ((n1 mod 4 * 16 + n2 / 16) * 16 + (n2 mod 16 * 4 + n3 / 64) / 4) mod 256 = n2)%N.
Proof. intros. byte_arith. Qed.

Lemma third_byte (n2 n3 : N) :
  (n2 < 256 -> n3 < 256 ->
   ((n2 mod 16 * 4 + n3 / 64) * 64 + n3 mod 64) mod 256 = n3)%N.
Proof. intros. byte_arith. Qed.

Lemma byte_lt_256 (b : byte) : (Byte.to_N b < 256)%N.
Proof. pose proof (Byte.to_N_bounded b). lia. Qed.

Lemma base64_round_trip_bounded (n : nat) :
  forall l : Buffer, length l <= n -> Buffer_from_base64 (Buffer_toString_base64 l) = l.
Proof.
  unfold Buffer_from_base64.
  induction n as [|n IH]; intros l Hlen.
  - destruct l; [reflexivity | simpl in Hlen; lia].
  - destruct l as [|b1 [|b2 [|b3 rest]]].
    + reflexivity.
    + pose proof (byte_lt_256 b1) as H1.
      destruct (sextet_bounds (Byte.to_N b1) 0 0 H1 ltac:(lia) ltac:(lia))
        as (Ha & _ & _ & _ & Hb & _).
      cbn [Buffer_toString_base64]. cbv zeta.
      rewrite !sextets_base64_char by assumption.
      cbn [sextets bytes_of_sextets].
      change (N_of_ascii "=" =? 61)%N with true. cbv iota.
      cbn [bytes_of_sextets]. f_equal.
      apply byte_of_N_to_N.
      pose proof (first_byte (Byte.to_N b1) 0 H1 ltac:(lia)) as Hf.
      rewrite N.add_0_r in Hf. exact Hf.
    + pose proof (byte_lt_256 b1) as H1. pose proof (byte_lt_256 b2) as H2.
      destruct (sextet_bounds (Byte.to_N b1) (Byte.to_N b2) 0 H1 H2 ltac:(lia))
        as (Ha & Hb & _ & _ & _ & Hc).
      cbn [Buffer_toString_base64]. cbv zeta.
      rewrite !sextets_base64_char by assumption.
      cbn [sextets].
      change (N_of_ascii "=" =? 61)%N with true. cbv iota.
      cbn [bytes_of_sextets]. f_equal; [|f_equal].
      * apply byte_of_N_to_N. now apply first_byte.
      * apply byte_of_N_to_N.
        pose proof (second_byte (Byte.to_N b1) (Byte.to_N b2) 0 H1 H2 ltac:(lia)) as Hs.
        rewrite N.add_0_r in Hs. exact Hs.
    + pose proof (byte_lt_256 b1) as H1. pose proof (byte_lt_256 b2) as H2.
      pose proof (byte_lt_256 b3) as H3.
      destruct (sextet_bounds (Byte.to_N b1) (Byte.to_N b2) (Byte.to_N b3) H1 H2 H3)
        as (Ha & Hb & Hc & Hd & _ & _).
      cbn [Buffer_toString_base64]. cbv zeta.
      rewrite !sextets_base64_char by assumption.
      cbn [bytes_of_sextets].
      rewrite IH by (simpl in Hlen; lia).
      f_equal; [|f_equal; [|f_equal]]; apply byte_of_N_to_N.
      * now apply first_byte.
      * now apply second_byte.
      * now apply third_byte.
Qed.

Lemma encode_head (l : Buffer) :
  l = [] \/
  exists v rest, (v < 64)%N /\ Buffer_toString_base64 l = String (base64_char v) rest.
Proof.
  destruct l as [|b1 l']; [now left | right].
  pose proof (byte_lt_256 b1) as H1.
  exists (Byte.to_N b1 / 4)%N.
  destruct l' as [|b2 [|b3 rest]]; cbn [Buffer_toString_base64]; cbv zeta;
    eexists; (split; [byte_arith | reflexivity]).
Qed.

Lemma encode_nonempty (l : Buffer) :
  l <> [] -> Buffer_toString_base64 l <> EmptyString.
Proof.
  intros Hl. destruct (encode_head l) as [-> | (v & rest & _ & ->)];
    [contradiction | discriminate].
Qed.

Lemma colon_not_base64 (v : N) :
  (v < 64)%N -> Ascii.eqb ":" (base64_char v) = false.
Proof.
  intros H. destruct (base64_char_legal v H) as (_ & _ & Hcolon).
  apply Ascii.eqb_neq. intros Heq. apply Hcolon. now rewrite <- Heq.
Qed.

Lemma equals_not_t : Ascii.eqb "t" "=" = false.
Proof. reflexivity. Qed.

(** Base64 text never starts with the prefix the server strips. *)
Lemma encode_not_data_url (l : Buffer) :
  strip_prefix "data:image/" (Buffer_toString_base64 l) = None.
Proof.
  destruct l as [|b1 [|b2 [|b3 rest]]]; cbn [Buffer_toString_base64]; cbv zeta.
  - reflexivity.
  - cbn [strip_prefix]. rewrite equals_not_t.
    repeat (destruct (Ascii.eqb _ (base64_char _))); reflexivity.
  - cbn [strip_prefix].
    change (Ascii.eqb "a" "=") with false.
    repeat (destruct (Ascii.eqb _ (base64_char _))); reflexivity.
  - cbn [strip_prefix].
    destruct (encode_head rest) as [-> | (v & tl & Hv & ->)].
    + cbn [Buffer_toString_base64].
      repeat (destruct (Ascii.eqb _ (base64_char _))); reflexivity.
    + rewrite (colon_not_base64 v Hv).
      repeat (destruct (Ascii.eqb _ (base64_char _))); reflexivity.
Qed.

Lemma strip_data_url_raw (l : Buffer) :
  strip_data_url (Buffer_toString_base64 l) = Buffer_toString_base64 l.
Proof. unfold strip_data_url. now rewrite encode_not_data_url. Qed.

Lemma strip_data_url_png (base64String : string) :
  strip_data_url ("data:" ++ "image/png" ++ ";base64," ++ base64String) = base64String.
Proof. reflexivity. Qed.

Lemma strip_data_url_jpeg (base64String : string) :
  strip_data_url ("data:" ++ "image/jpeg" ++ ";base64," ++ base64String) = base64String.
Proof. reflexivity. Qed.

(** ** Extra properties: the client against the server *)

Lemma base64_round_trip (l : Buffer) :
  Buffer_from_base64 (Buffer_toString_base64 l) = l.
Proof. apply (base64_round_trip_bounded (length l)). reflexivity. Qed.

(** X1.  Decoding, as the server does, the base64 text the client produces
    for a buffer gives the buffer back; so two buffers with the same text
    are equal. *)
Theorem base64_decode_encode (l : Buffer) :
  Buffer_from_base64 (Buffer_toString_base64 l) = l /\
  (forall l', Buffer_toString_base64 l = Buffer_toString_base64 l' -> l = l').
Proof.
  split; [apply base64_round_trip|].
  intros l' H. rewrite <- (base64_round_trip l), H. apply base64_round_trip.
Qed.

(** X2.  For a file the client can read, [imageToBase64] returns a data
    URL that is not empty; the server strips its prefix and decodes the
    bytes of the file, so that [POST /predict] on this URL behaves as
    [POST /predict/upload] on the file. *)
Theorem imageToBase64_decoded {C : ClientLibraries} {L : Libraries}
    (imagePath : string) (imageBuffer : Buffer) :
  fs_readFileSync imagePath = Return imageBuffer ->
  exists url,
    imageToBase64 imagePath = Some url /\
    url <> EmptyString /\
    Buffer_from_base64 (strip_data_url url) = imageBuffer /\
    forall w, predict_route (JsString url) w = upload_route (Some imageBuffer) w.
Proof.
  intros Hread. unfold imageToBase64. rewrite Hread. cbv zeta.
  eexists. split; [reflexivity|].
  assert (Hdec : Buffer_from_base64
            (strip_data_url
               ("data:" ++
                (if (toLowerCase (path_extname imagePath) =? ".png")%string
                 then "image/png" else "image/jpeg") ++
                ";base64," ++ Buffer_toString_base64 imageBuffer)) = imageBuffer).
  { destruct (toLowerCase (path_extname imagePath) =? ".png")%string.
    - rewrite strip_data_url_png. apply base64_round_trip.
    - rewrite strip_data_url_jpeg. apply base64_round_trip. }
  split; [discriminate|]. split; [exact Hdec|].
  intros w. rewrite predict_route_string by discriminate.
  unfold process. now rewrite Hdec.
Qed.

(** The theorem on the file of the sample file system. *)
Lemma imageToBase64_decoded_witness :
  exists url,
    imageToBase64 (C := sample_client) "scan.PNG" = Some url /\
    Buffer_from_base64 (strip_data_url url) = [x89; x0a; x14; x1e; xff].
Proof.
  destruct (imageToBase64_decoded (C := sample_client) (L := sample_libraries)
              "scan.PNG" [x89; x0a; x14; x1e; xff] eq_refl)
    as (url & Hurl & _ & Hdec & _).
  exists url. split; assumption.
Defined.

(** X3.  Base64 text sent without the data-URL prefix is accepted as
    well: the text of a buffer that is not empty is left as it is by the
    prefix removal, and the handler runs the pipeline on that buffer. *)
Theorem raw_base64_accepted {L : Libraries} (l : Buffer) (w : World) :
  l <> [] ->
  strip_data_url (Buffer_toString_base64 l) = Buffer_toString_base64 l /\
  predict_route (JsString (Buffer_toString_base64 l)) w = process l w.
Proof.
  intros Hl. split; [apply strip_data_url_raw|].
  rewrite predict_route_string by now apply encode_nonempty.
  now rewrite strip_data_url_raw, base64_round_trip.
Qed.

(** The theorem on a buffer of one byte. *)
Lemma raw_base64_accepted_witness :
  predict_route (L := sample_libraries) (JsString (Buffer_toString_base64 [x89])) loaded_world
  = process (L := sample_libraries) [x89] loaded_world.
Proof.
  assert (H : [x89] <> @nil byte) by discriminate.
  exact (proj2 (raw_base64_accepted (L := sample_libraries) [x89] loaded_world H)).
Defined.

(** ** Extra properties: the handlers and the globals *)

Lemma makePrediction_world {L : Libraries} (t : Tensor) (w : World) :
  snd (makePrediction t w) = w \/
  snd (makePrediction t w) = record_call (ModelPredict t) w.
Proof.
  rewrite makePrediction_unfold.
  destruct (isModelLoaded w); [destruct (model w)|]; cbn [snd]; auto.
Qed.

(** What one run of the pipeline leaves behind: the globals as they were,
    and at most one call to the decoder followed by at most one call to
    the model. *)
Lemma process_world {L : Libraries} (encoded : Buffer) (w : World) :
  model (snd (process encoded w)) = model w /\
  isModelLoaded (snd (process encoded w)) = isModelLoaded w /\
  (calls (snd (process encoded w)) = calls w \/
   calls (snd (process encoded w)) = (calls w ++ [JimpRead encoded])%list \/
   exists t, calls (snd (process encoded w))
             = (calls w ++ [JimpRead encoded; ModelPredict t])%list).
Proof.
  destruct (isModelLoaded w) eqn:Hl.
  - rewrite (process_loaded _ _ Hl).
    pose proof (preprocessImage_world encoded w) as Hw1.
    destruct (preprocessImage encoded w) as [[t | e] w1]; cbn [snd] in Hw1; subst w1.
    + pose proof (makePrediction_world t (record_call (JimpRead encoded) w)) as Hw2.
      destruct (makePrediction t (record_call (JimpRead encoded) w)) as [[r | e] w2];
        cbn [snd] in *; destruct Hw2 as [-> | ->]; cbn [record_call model isModelLoaded calls];
        repeat split; auto;
        right; right; exists t; now rewrite <- app_assoc.
    + cbn [snd record_call model isModelLoaded calls]. auto.
  - rewrite (process_not_loaded _ _ Hl). cbn [snd]. auto.
Qed.

(** Past the gate the decoder is always called. *)
Lemma process_loaded_calls {L : Libraries} (encoded : Buffer) (w : World) :
  isModelLoaded w = true ->
  calls (snd (process encoded w)) <> calls w.
Proof.
  intros Hl Heq.
  assert (Hlen : length (calls (snd (process encoded w))) = length (calls w))
    by now rewrite Heq.
  rewrite (process_loaded _ _ Hl) in Hlen.
  pose proof (preprocessImage_world encoded w) as Hw1.
  destruct (preprocessImage encoded w) as [[t | e] w1]; cbn [snd] in Hw1; subst w1.
  - pose proof (makePrediction_world t (record_call (JimpRead encoded) w)) as Hw2.
    destruct (makePrediction t (record_call (JimpRead encoded) w)) as [[r | e] w2];
      cbn [snd] in *; destruct Hw2 as [-> | ->];
      cbn [record_call calls] in Hlen; rewrite ?length_app in Hlen; simpl in Hlen; lia.
  - cbn [snd record_call calls] in Hlen. rewrite length_app in Hlen. simpl in Hlen. lia.
Qed.

(** The answers the pipeline can give. *)
Lemma process_response {L : Libraries} (encoded : Buffer) (w : World) :
  exists r, fst (process encoded w) = Return r /\
    (r = model_unavailable \/
     r = internal_error image_processing_error \/
     r = internal_error prediction_error \/
     exists score, r = prediction_response (interpret score)).
Proof.
  destruct (isModelLoaded w) eqn:Hl.
  - rewrite (process_loaded _ _ Hl).
    destruct (preprocessImage encoded w) as [[t | e] w1] eqn:Hpre.
    + rewrite makePrediction_unfold.
      destruct (isModelLoaded w1); [destruct (model w1) as [m|]|].
      * destruct (predict m t) as [s | e]; cbn [fst]; eauto 8.
      * cbn [fst]. eauto 8.
      * cbn [fst]. eauto 8.
    + destruct (preprocessImage_throws _ _ _ _ Hpre) as [-> _]. cbn [fst]. eauto 8.
  - rewrite (process_not_loaded _ _ Hl). cbn [fst]. eauto 8.
Qed.

(** With the model loaded, [POST /predict] either answers at once or runs
    the pipeline on the decoded bytes. *)
Lemma predict_route_loaded_cases {L : Libraries} (image : JsValue) (w : World) :
  isModelLoaded w = true ->
  snd (predict_route image w) = w \/
  exists encoded, predict_route image w = process encoded w.
Proof.
  intros Hl. destruct (truthy image) eqn:Ht.
  - destruct image as [| | b | q | s |];
      try (left; unfold predict_route, try_catch, bind, gets, ret;
           rewrite Hl, Ht; reflexivity).
    right. exists (Buffer_from_base64 (strip_data_url s)).
    apply predict_route_string. intros ->. discriminate Ht.
  - left. unfold predict_route, try_catch, bind, gets, ret. now rewrite Hl, Ht.
Qed.

Lemma predict_route_image_required {L : Libraries} (image : JsValue) (w : World) :
  isModelLoaded w = true -> truthy image = false ->
  fst (predict_route image w) = Return image_required.
Proof.
  intros Hl Ht. unfold predict_route, try_catch, bind, gets, ret.
  now rewrite Hl, Ht.
Qed.

(** X4.  With the model loaded, [POST /predict] starts work on the image
    only when the field is a string that is not empty: a missing, null,
    false, zero or empty field is answered with the 400 that asks for an
    image, any other value that is not a string with the 400 of the
    invalid format, both without calling the decoder or the model; and
    [POST /predict/upload] without a file is answered with a 400 in the
    same way. *)
Theorem request_validation {L : Libraries} (image : JsValue) (w : World) :
  isModelLoaded w = true ->
  (truthy image = false -> predict_route image w = (Return image_required, w)) /\
  (truthy image = true -> (forall s, image <> JsString s) ->
     predict_route image w = (Return invalid_base64, w)) /\
  (calls (snd (predict_route image w)) = calls w <->
     forall s, image = JsString s -> s = EmptyString) /\
  upload_route None w = (Return file_required, w).
Proof.
  intros Hl.
  assert (Hfalsy : truthy image = false ->
                   predict_route image w = (Return image_required, w)).
  { intros Ht. unfold predict_route, try_catch, bind, gets, ret.
    now rewrite Hl, Ht. }
  assert (Hother : truthy image = true -> (forall s, image <> JsString s) ->
                   predict_route image w = (Return invalid_base64, w)).
  { intros Ht Hns. unfold predict_route, try_catch, bind, gets, ret.
    rewrite Hl, Ht. cbn [negb].
    destruct image; try reflexivity. now destruct (Hns s). }
  split; [exact Hfalsy|]. split; [exact Hother|]. split.
  - split.
    + intros Hcalls s -> . destruct s as [|c s']; [reflexivity|].
      rewrite predict_route_string in Hcalls by discriminate.
      now destruct (process_loaded_calls _ _ Hl Hcalls).
    + intros Hstr. destruct (Bool.bool_dec (truthy image) true) as [Ht | Ht].
      * rewrite Hother; [reflexivity | exact Ht |].
        intros s ->. rewrite (Hstr s eq_refl) in Ht. discriminate Ht.
      * apply not_true_is_false in Ht. now rewrite Hfalsy.
  - unfold upload_route, try_catch, bind, gets, ret. now rewrite Hl.
Qed.

(** The theorem on a body without the field. *)
Lemma request_validation_witness :
  predict_route (L := sample_libraries) JsUndefined loaded_world
  = (Return image_required, loaded_world).
Proof.
  destruct (request_validation (L := sample_libraries) JsUndefined loaded_world eq_refl)
    as (Hfalsy & _).
  exact (Hfalsy eq_refl).
Defined.


(** X5.  When the image is turned into a tensor and the model returns a
    score for it, the pipeline answers 200 with the diagnosis and the
    confidence of that score, after one call to the decoder and one call
    to the model on that tensor. *)
Theorem prediction_success {L : Libraries}
    (encoded : Buffer) (w w1 : World) (m : GraphModel) (t : Tensor) (score : Q) :
  isModelLoaded w = true ->
  model w = Some m ->
  preprocessImage encoded w = (Return t, w1) ->
  predict m t = Return score ->
  process encoded w =
    (Return {| status := 200;
               body := ResultBody (diagnosis (interpret score))
                                  (confidence (interpret score)) |},
     {| model := model w; isModelLoaded := true;
        calls := (calls w ++ [JimpRead encoded; ModelPredict t])%list |}).
Proof.
  intros Hl Hm Hpre Hpred.
  rewrite (process_loaded _ _ Hl), Hpre.
  pose proof (preprocessImage_world encoded w) as Hw1.
  rewrite Hpre in Hw1. cbn [snd] in Hw1. subst w1.
  rewrite makePrediction_unfold.
  cbn [record_call isModelLoaded model]. rewrite Hl, Hm, Hpred.
  unfold prediction_response, record_call. cbn [calls model isModelLoaded].
  now rewrite <- app_assoc, Hl, Hm.
Qed.

(** The theorem on the sample image and the sample model, whose score is
    the first value of the tensor. *)
Lemma prediction_success_witness :
  fst (process (L := sample_libraries) [x89; x0a; x14; x1e; xff] loaded_world) =
  Return {| status := 200;
            body := ResultBody (diagnosis (interpret (byte_to_Q x0a / 255)))
                               (confidence (interpret (byte_to_Q x0a / 255))) |}.
Proof.
  destruct (preprocessImage_decodable (L := sample_libraries)
              [x89; x0a; x14; x1e; xff]
              {| width := 1; height := 1; data := [x0a; x14; x1e; xff] |}
              loaded_world sample_resize_contract eq_refl)
    as (t & Hrun & _ & _ & Helem).
  destruct (Helem 0 ltac:(lia)) as (b & Hb & Hv).
  vm_compute in Hb. injection Hb as <-.
  rewrite (prediction_success (L := sample_libraries) _ loaded_world _
             sample_model t (byte_to_Q x0a / 255) eq_refl eq_refl Hrun).
  - reflexivity.
  - unfold sample_model, predict.
    destruct (values t) as [|[q|] tl]; simpl in Hv; inversion Hv. reflexivity.
Defined.

Lemma one_run_process {L : Libraries} (encoded : Buffer) (w : World) :
  exists l, calls (snd (process encoded w)) = (calls w ++ l)%list /\ one_run l.
Proof.
  destruct (process_world encoded w) as (_ & _ & [H | [H | [t H]]]).
  - exists []. rewrite H, app_nil_r. split; [reflexivity | now left].
  - exists [JimpRead encoded]. split; [exact H | right; left; eauto].
  - exists [JimpRead encoded; ModelPredict t]. split; [exact H | right; right; eauto].
Qed.

(** [POST /predict] either leaves the state as it is or runs the pipeline
    on some buffer. *)
Lemma predict_route_cases {L : Libraries} (image : JsValue) (w : World) :
  snd (predict_route image w) = w \/
  exists encoded, predict_route image w = process encoded w.
Proof.
  destruct (isModelLoaded w) eqn:Hl.
  - now apply predict_route_loaded_cases.
  - left. now rewrite (predict_route_not_loaded _ _ Hl).
Qed.

Lemma upload_route_cases {L : Libraries} (file : option Buffer) (w : World) :
  snd (upload_route file w) = w \/
  exists encoded, upload_route file w = process encoded w.
Proof.
  destruct file as [buffer|].
  - right. exists buffer. reflexivity.
  - left. unfold upload_route, try_catch, bind, gets, ret.
    destruct (isModelLoaded w); reflexivity.
Qed.

Lemma one_run_nil : one_run [].
Proof. now left. Qed.

Lemma handlers_keep_globals_aux {L : Libraries} (w : World) :
  (forall image,
     model (snd (predict_route image w)) = model w /\
     isModelLoaded (snd (predict_route image w)) = isModelLoaded w) /\
  (forall file,
     model (snd (upload_route file w)) = model w /\
     isModelLoaded (snd (upload_route file w)) = isModelLoaded w).
Proof.
  split.
  - intros image. destruct (predict_route_cases image w) as [-> | [encoded ->]].
    + now split.
    + destruct (process_world encoded w) as (Hm & Hl & _). now split.
  - intros file. destruct (upload_route_cases file w) as [-> | [encoded ->]].
    + now split.
    + destruct (process_world encoded w) as (Hm & Hl & _). now split.
Qed.

(** X6.  No request changes the globals [model] and [isModelLoaded]; a
    request adds to the calls made so far at most one call to the decoder,
    followed by at most one call to the model. *)
Theorem handlers_keep_globals {L : Libraries} (w : World) :
  (forall image,
     model (snd (predict_route image w)) = model w /\
     isModelLoaded (snd (predict_route image w)) = isModelLoaded w /\
     exists l, calls (snd (predict_route image w)) = (calls w ++ l)%list /\ one_run l) /\
  (forall file,
     model (snd (upload_route file w)) = model w /\
     isModelLoaded (snd (upload_route file w)) = isModelLoaded w /\
     exists l, calls (snd (upload_route file w)) = (calls w ++ l)%list /\ one_run l).
Proof.
  split.
  - intros image. destruct (predict_route_cases image w) as [-> | [encoded ->]].
    + repeat split. exists []. rewrite app_nil_r. split; [reflexivity | apply one_run_nil].
    + destruct (process_world encoded w) as (Hm & Hl & _).
      repeat split; auto. apply one_run_process.
  - intros file. destruct (upload_route_cases file w) as [-> | [encoded ->]].
    + repeat split. exists []. rewrite app_nil_r. split; [reflexivity | apply one_run_nil].
    + destruct (process_world encoded w) as (Hm & Hl & _).
      repeat split; auto. apply one_run_process.
Qed.

Lemma loadModel_ready {L : Libraries} (w : World) : model_ready (snd (loadModel w)).
Proof.
  unfold loadModel, model_ready.
  destruct (tf_loadGraphModel "model.json") as [m | e]; cbn [snd model isModelLoaded].
  - eauto.
  - discriminate.
Qed.

Lemma model_ready_same (w w' : World) :
  model w' = model w -> isModelLoaded w' = isModelLoaded w ->
  model_ready w -> model_ready w'.
Proof. unfold model_ready. intros -> ->. auto. Qed.

(** X7.  The flag and the model agree: after [loadModel], whatever the
    state before and whether the load succeeded or not, a model flagged as
    loaded is defined, and requests keep it so.  In such a state with the
    flag set, [makePrediction] always reaches the model, and fails exactly
    when the model throws. *)
Theorem model_ready_kept {L : Libraries} (w : World) :
  model_ready (snd (loadModel w)) /\
  (model_ready w ->
     (forall image, model_ready (snd (predict_route image w))) /\
     (forall file, model_ready (snd (upload_route file w)))) /\
  (model_ready w -> isModelLoaded w = true ->
     exists m, model w = Some m /\
       forall t, makePrediction t w =
         (match predict m t with
          | Return score => Return (interpret score)
          | Throw _ => Throw prediction_error
          end,
          record_call (ModelPredict t) w)).
Proof.
  split; [apply loadModel_ready|]. split.
  - intros Hr. destruct (handlers_keep_globals_aux w) as [Hp Hu].
    split.
    + intros image. destruct (Hp image) as [Hm Hl].
      exact (model_ready_same _ _ Hm Hl Hr).
    + intros file. destruct (Hu file) as [Hm Hl].
      exact (model_ready_same _ _ Hm Hl Hr).
  - intros Hr Hl. destruct (Hr Hl) as [m Hm]. exists m. split; [exact Hm|].
    intros t. now rewrite makePrediction_unfold, Hl, Hm.
Qed.

Lemma diagnosis_in_classNames (score : Q) : In (diagnosis (interpret score)) classNames.
Proof.
  unfold interpret, classNames. cbn [diagnosis].
  destruct (isMalignant score); simpl; auto.
Qed.

(** A response is well formed when its status is one of 200, 400, 500 and
    503, a 200 carries a result whose diagnosis is one of the two class
    names, and any other status carries an error body. *)
Lemma well_formed_cases (r : Response) :
  r = model_unavailable \/ r = image_required \/ r = invalid_base64 \/
  r = file_required \/ (exists e, r = internal_error e) \/
  (exists score, r = prediction_response (interpret score)) ->
  (status r = 200 \/ status r = 400 \/ status r = 500 \/ status r = 503) /\
  (status r = 200 ->
     exists diagnosis confidence,
       body r = ResultBody diagnosis confidence /\ In diagnosis classNames) /\
  (status r <> 200 -> exists error message, body r = ErrorBody error message).
Proof.
  intros [-> | [-> | [-> | [-> | [[e ->] | [score ->]]]]]];
    (split; [cbn [status model_unavailable image_required invalid_base64 file_required
                  internal_error prediction_response]; auto|]);
    (split; [intros Hs; try discriminate Hs | intros Hs]).
  all: try (eexists; eexists; reflexivity).
  - exists (diagnosis (interpret score)), (confidence (interpret score)).
    split; [reflexivity | apply diagnosis_in_classNames].
  - now destruct Hs.
Qed.

Lemma predict_route_response {L : Libraries} (image : JsValue) (w : World) :
  exists r, fst (predict_route image w) = Return r /\
    (r = model_unavailable \/ r = image_required \/ r = invalid_base64 \/
     r = file_required \/ (exists e, r = internal_error e) \/
     (exists score, r = prediction_response (interpret score))).
Proof.
  destruct (isModelLoaded w) eqn:Hl.
  - destruct (truthy image) eqn:Ht.
    + destruct image as [| | b | q | s |];
        try (exists invalid_base64; split; [|auto];
             unfold predict_route, try_catch, bind, gets, ret;
             rewrite Hl, Ht; reflexivity).
      rewrite predict_route_string by (intros ->; discriminate Ht).
      destruct (process_response (Buffer_from_base64 (strip_data_url s)) w)
        as (r & Hr & [H | [H | [H | H]]]); exists r; (split; [exact Hr|]); eauto 10.
    + exists image_required. split; [|auto].
      unfold predict_route, try_catch, bind, gets, ret. now rewrite Hl, Ht.
  - exists model_unavailable. rewrite (predict_route_not_loaded _ _ Hl). auto.
Qed.

Lemma upload_route_response {L : Libraries} (file : option Buffer) (w : World) :
  exists r, fst (upload_route file w) = Return r /\
    (r = model_unavailable \/ r = image_required \/ r = invalid_base64 \/
     r = file_required \/ (exists e, r = internal_error e) \/
     (exists score, r = prediction_response (interpret score))).
Proof.
  destruct file as [buffer|].
  - destruct (process_response buffer w) as (r & Hr & [H | [H | [H | H]]]);
      exists r; (split; [exact Hr|]); eauto 10.
  - destruct (isModelLoaded w) eqn:Hl.
    + exists file_required. split; [|auto 6].
      unfold upload_route, try_catch, bind, gets, ret. now rewrite Hl.
    + exists model_unavailable. rewrite (upload_route_not_loaded _ _ Hl). auto.
Qed.

(** X9.  Neither handler lets an exception escape.  The status of the
    response is 200, 400, 500 or 503; a 200 carries a result whose
    diagnosis is one of [classNames]; any other status carries an error
    body. *)
Theorem responses_well_formed {L : Libraries} (w : World) :
  (forall image, exists r,
     fst (predict_route image w) = Return r /\
     (status r = 200 \/ status r = 400 \/ status r = 500 \/ status r = 503) /\
     (status r = 200 ->
        exists diagnosis confidence,
          body r = ResultBody diagnosis confidence /\ In diagnosis classNames) /\
     (status r <> 200 -> exists error message, body r = ErrorBody error message)) /\
  (forall file, exists r,
     fst (upload_route file w) = Return r /\
     (status r = 200 \/ status r = 400 \/ status r = 500 \/ status r = 503) /\
     (status r = 200 ->
        exists diagnosis confidence,
          body r = ResultBody diagnosis confidence /\ In diagnosis classNames) /\
     (status r <> 200 -> exists error message, body r = ErrorBody error message)).
Proof.
  split.
  - intros image. destruct (predict_route_response image w) as (r & Hr & Hcases).
    exists r. split; [exact Hr | now apply well_formed_cases].
  - intros file. destruct (upload_route_response file w) as (r & Hr & Hcases).
    exists r. split; [exact Hr | now apply well_formed_cases].
Qed.

(** X8.  The two status routes leave the state as it is and report the
    same flag, with the two class names; the flag they report is false
    exactly when every prediction request is answered with the 503 of the
    readiness gate. *)
Theorem status_routes_match_gate {L : Libraries} (w : World) :
  snd (health_route w) = w /\
  snd (model_status_route w) = w /\
  exists h s,
    fst (health_route w) = Return h /\
    fst (model_status_route w) = Return s /\
    health_status h = "ok" /\
    status_classNames s = ["Benigno"; "Maligno"] /\
    modelLoaded h = loaded s /\
    (modelLoaded h = false <->
       forall image, fst (predict_route image w) = Return model_unavailable) /\
    (modelLoaded h = false <->
       forall file, fst (upload_route file w) = Return model_unavailable).
Proof.
  split; [reflexivity|]. split; [reflexivity|].
  eexists. eexists. split; [reflexivity|]. split; [reflexivity|].
  cbn [health_status status_classNames modelLoaded loaded].
  split; [reflexivity|]. split; [reflexivity|]. split; [reflexivity|].
  split; split.
  - intros Hl image. now rewrite (predict_route_not_loaded _ _ Hl).
  - intros H. destruct (isModelLoaded w) eqn:Hl; [|reflexivity].
    specialize (H JsUndefined).
    pose proof (predict_route_image_required JsUndefined w Hl eq_refl) as Hreq.
    rewrite Hreq in H. discriminate H.
  - intros Hl file. now rewrite (upload_route_not_loaded _ _ Hl).
  - intros H. destruct (isModelLoaded w) eqn:Hl; [|reflexivity].
    specialize (H None).
    unfold upload_route, try_catch, bind, gets, ret in H.
    rewrite Hl in H. discriminate H.
Qed.

(** X14.  [startServer] never exits the process: it ends listening, with
    no call made to the decoder or to the model.  When the model file
    loads, the flag is set and the model stored; when it does not, the
    flag is cleared, and every prediction request is then answered with
    the 503 of the gate. *)
Theorem startServer_listens {L : Libraries} (w : World) :
  exists w',
    startServer w = (Return Listening, w') /\
    calls w' = calls w /\
    model_ready w' /\
    (forall m, tf_loadGraphModel "model.json" = Return m ->
       isModelLoaded w' = true /\ model w' = Some m) /\
    (forall e, tf_loadGraphModel "model.json" = Throw e ->
       isModelLoaded w' = false /\ model w' = model w /\
       (forall image, predict_route image w' = (Return model_unavailable, w')) /\
       (forall file, upload_route file w' = (Return model_unavailable, w'))).
Proof.
  exists (snd (loadModel w)).
  pose proof (loadModel_ready w) as Hready.
  assert (Hrun : startServer w = (Return Listening, snd (loadModel w))).
  { unfold startServer, try_catch, bind, ret, loadModel.
    destruct (tf_loadGraphModel "model.json"); reflexivity. }
  split; [exact Hrun|].
  split; [unfold loadModel; destruct (tf_loadGraphModel "model.json"); reflexivity|].
  split; [exact Hready|]. split.
  - intros m Hm. unfold loadModel. rewrite Hm. split; reflexivity.
  - intros e He.
    assert (Hl : isModelLoaded (snd (loadModel w)) = false)
      by exact (loadModel_failure w e He).
    split; [exact Hl|]. split; [unfold loadModel; now rewrite He|]. split.
    + intros image. now apply predict_route_not_loaded.
    + intros file. now apply upload_route_not_loaded.
Qed.

(** ** Extra properties: the normaliser *)

Lemma rgb_loop_length (data : Buffer) :
  forall fuel i rgbData rgbIndex,
    length (rgb_loop fuel data i rgbData rgbIndex) = length rgbData.
Proof.
  induction fuel as [|fuel IH]; intros i rgbData rgbIndex; cbn [rgb_loop].
  - reflexivity.
  - destruct (i <? length data); [|reflexivity].
    rewrite IH, !length_insert. reflexivity.
Qed.

Lemma pixel_of_index (j k : nat) : 3 * j <= k -> 4 * j <= 4 * (k / 3).
Proof.
  intros H. apply Nat.mul_le_mono_l.
  apply Nat.div_le_lower_bound; lia.
Qed.

(** The loop on a buffer of any length: once the fuel covers what is left
    of the buffer, the element [k] at or after the current position is
    written from pixel [k / 3] when that pixel starts inside the buffer
    and [k] is inside the array, and is left alone otherwise. *)
Lemma rgb_loop_lookup (data : Buffer) :
  forall fuel j rgbData,
    length data <= 4 * j + 4 * fuel ->
    forall k,
      rgb_loop fuel data (4 * j) rgbData (3 * j) !! k =
      if decide (3 * j <= k /\ 4 * (k / 3) < length data /\ k < length rgbData)
      then Some (div255 data (source_index k))
      else rgbData !! k.
Proof.
  induction fuel as [|fuel IH]; intros j rgbData Hfuel k.
  - cbn [rgb_loop]. case_decide as Hc; [|reflexivity].
    destruct Hc as (Hk & Hd & _). pose proof (pixel_of_index j k Hk). lia.
  - cbn [rgb_loop].
    destruct (Nat.ltb_spec (4 * j) (length data)) as [Hlt | Hge].
    + set (r1 := <[3 * j := div255 data (4 * j)]> rgbData).
      set (r2 := <[3 * j + 1 := div255 data (4 * j + 1)]> r1).
      set (r3 := <[3 * j + 2 := div255 data (4 * j + 2)]> r2).
      assert (Hl1 : length r1 = length rgbData) by (subst r1; now rewrite length_insert).
      assert (Hl2 : length r2 = length rgbData) by (subst r2; now rewrite length_insert).
      assert (Hl3 : length r3 = length rgbData) by (subst r3; now rewrite length_insert).
      replace (4 * j + 4) with (4 * S j) by lia.
      replace (3 * j + 3) with (3 * S j) by lia.
      rewrite IH by lia. rewrite Hl3.
      destruct (Nat.lt_ge_cases k (3 * j)) as [Hbefore | Hfrom].
      { rewrite !decide_False by lia.
        subst r3 r2 r1. now rewrite !list_lookup_insert_ne by lia. }
      destruct (Nat.le_gt_cases (3 * S j) k) as [Hafter | Hin].
      { assert (Heq : r3 !! k = rgbData !! k)
          by (subst r3 r2 r1; now rewrite !list_lookup_insert_ne by lia).
        rewrite Heq.
        destruct (decide (4 * (k / 3) < length data /\ k < length rgbData)) as [Hc | Hc].
        - rewrite !decide_True by (split; [lia | exact Hc]). reflexivity.
        - rewrite !decide_False by tauto. reflexivity. }
      rewrite decide_False by lia.
      assert (Hc : k = 3 * j + 0 \/ k = 3 * j + 1 \/ k = 3 * j + 2) by lia.
      destruct (Nat.lt_ge_cases k (length rgbData)) as [Hinside | Houtside].
      * rewrite decide_True.
        2:{ split; [lia|]. split; [|exact Hinside].
            destruct Hc as [-> | [-> | ->]];
              [destruct (div3_index j 0 ltac:(lia)) as [-> _]
              |destruct (div3_index j 1 ltac:(lia)) as [-> _]
              |destruct (div3_index j 2 ltac:(lia)) as [-> _]]; lia. }
        unfold source_index.
        destruct Hc as [-> | [-> | ->]].
        -- destruct (div3_index j 0 ltac:(lia)) as [-> ->].
           subst r3 r2. rewrite !list_lookup_insert_ne by lia.
           subst r1. rewrite !Nat.add_0_r in *.
           rewrite list_lookup_insert_eq by lia. reflexivity.
        -- destruct (div3_index j 1 ltac:(lia)) as [-> ->].
           subst r3. rewrite list_lookup_insert_ne by lia.
           subst r2. rewrite list_lookup_insert_eq by lia. reflexivity.
        -- destruct (div3_index j 2 ltac:(lia)) as [-> ->].
           subst r3. rewrite list_lookup_insert_eq by lia. reflexivity.
      * rewrite decide_False by lia.
        rewrite (lookup_ge_None_2 r3) by lia.
        now rewrite (lookup_ge_None_2 rgbData) by lia.
    + case_decide as Hc; [|reflexivity].
      destruct Hc as (Hk & Hd & _). pose proof (pixel_of_index j k Hk). lia.
Qed.

(** X12.  The conversion loop on a buffer of any length.  The array keeps
    its [width * height * 3] elements.  Element [k] is the byte of channel
    [k mod 3] of pixel [k / 3] over 255 when that pixel starts inside the
    buffer, [NaN] when the pixel starts inside but the byte lies beyond
    the end, and stays 0 when the buffer has no such pixel; bytes beyond
    the capacity of the array are dropped.  Running the loop for more
    iterations than the length of the buffer changes nothing. *)
Theorem rgba_to_rgb_elements (w h : nat) (data : Buffer) :
  length (rgba_to_rgb w h data) = w * h * 3 /\
  (forall k, k < w * h * 3 ->
     rgba_to_rgb w h data !! k =
     Some (if 4 * (k / 3) <? length data
           then match data !! source_index k with
                | Some b => Num (byte_to_Q b / 255)
                | None => NaN
                end
           else Num 0)) /\
  (forall k, w * h * 3 <= k -> rgba_to_rgb w h data !! k = None) /\
  (forall fuel, length data <= fuel ->
     rgb_loop fuel data 0 (replicate (w * h * 3) (Num 0)) 0 = rgba_to_rgb w h data).
Proof.
  assert (Hlen : length (rgba_to_rgb w h data) = w * h * 3).
  { unfold rgba_to_rgb. now rewrite rgb_loop_length, length_replicate. }
  assert (Hlook : forall fuel k, length data <= fuel ->
            rgb_loop fuel data 0 (replicate (w * h * 3) (Num 0)) 0 !! k =
            if decide (4 * (k / 3) < length data /\ k < w * h * 3)
            then Some (div255 data (source_index k))
            else replicate (w * h * 3) (Num 0) !! k).
  { intros fuel k Hfuel.
    pose proof (rgb_loop_lookup data fuel 0 (replicate (w * h * 3) (Num 0))
                  ltac:(lia) k) as H.
    rewrite !Nat.mul_0_r, length_replicate in H. rewrite H.
    destruct (decide (4 * (k / 3) < length data /\ k < w * h * 3)) as [Hc | Hc].
    - rewrite decide_True by (split; [lia | exact Hc]). reflexivity.
    - rewrite decide_False by tauto. reflexivity. }
  split; [exact Hlen|]. split; [|split].
  - intros k Hk. unfold rgba_to_rgb. rewrite Hlook by lia.
    destruct (Nat.ltb_spec (4 * (k / 3)) (length data)) as [Hin | Hout].
    + rewrite decide_True by (split; assumption). reflexivity.
    + rewrite decide_False by lia. now apply lookup_replicate_2.
  - intros k Hk. apply lookup_ge_None_2. lia.
  - intros fuel Hfuel. apply list_eq. intros k.
    unfold rgba_to_rgb. now rewrite !Hlook by lia.
Qed.

Lemma rgba_to_rgb_length (w h : nat) (data : Buffer) :
  length (rgba_to_rgb w h data) = w * h * 3.
Proof. unfold rgba_to_rgb. now rewrite rgb_loop_length, length_replicate. Qed.

(** X10.  Whatever the decoder and the resize do, a tensor returned by
    [preprocessImage] has the shape (1, 224, 224, 3) and exactly
    224 * 224 * 3 values, and the decoder has been called once on the
    buffer. *)
Theorem preprocessImage_shape {L : Libraries}
    (imageBuffer : Buffer) (w w' : World) (t : Tensor) :
  preprocessImage imageBuffer w = (Return t, w') ->
  shape t = [1; 224; 224; 3] /\
  length (values t) = 224 * 224 * 3 /\
  w' = record_call (JimpRead imageBuffer) w.
Proof.
  rewrite preprocessImage_unfold.
  destruct (Jimp_read imageBuffer) as [image | e]; [|discriminate].
  cbv zeta. unfold tf_tensor3d.
  destruct (Nat.eqb_spec
              (length (rgba_to_rgb (width (Jimp_resize 224 224 image))
                         (height (Jimp_resize 224 224 image))
                         (data (Jimp_resize 224 224 image))))
              (foldr Nat.mul 1 [224; 224; 3])) as [Heq | Hne]; [|discriminate].
  intros H. inversion H; subst. unfold expandDims0. cbn [shape values].
  split; [reflexivity|]. split; [|reflexivity].
  rewrite Heq. change (foldr Nat.mul 1 [224; 224; 3]) with (224 * (224 * (3 * 1))). lia.
Qed.

(** The theorem on the sample image. *)
Lemma preprocessImage_shape_witness :
  exists t,
    fst (preprocessImage (L := sample_libraries) [x89; x0a; x14; x1e; xff] initial_world)
      = Return t /\
    shape t = [1; 224; 224; 3] /\
    length (values t) = 224 * 224 * 3.
Proof.
  destruct (preprocessImage_decodable (L := sample_libraries)
              [x89; x0a; x14; x1e; xff]
              {| width := 1; height := 1; data := [x0a; x14; x1e; xff] |}
              initial_world sample_resize_contract eq_refl)
    as (t & Hrun & _).
  exists t. rewrite Hrun. split; [reflexivity|].
  destruct (preprocessImage_shape (L := sample_libraries) _ _ _ _ Hrun) as (Hs & Hl & _).
  split; assumption.
Defined.

(** X11.  When the bitmap that comes back from the resize does not have
    224 * 224 pixels, the tensor cannot be built and [preprocessImage]
    throws the same error as for bytes that are not an image. *)
Theorem wrong_size_is_processing_error {L : Libraries}
    (imageBuffer : Buffer) (image : Bitmap) (w : World) :
  Jimp_read imageBuffer = Return image ->
  width (Jimp_resize 224 224 image) * height (Jimp_resize 224 224 image) <> 224 * 224 ->
  preprocessImage imageBuffer w =
    (Throw image_processing_error, record_call (JimpRead imageBuffer) w).
Proof.
  intros Hread Hsize.
  rewrite preprocessImage_unfold, Hread. cbv zeta. unfold tf_tensor3d.
  destruct (Nat.eqb_spec
              (length (rgba_to_rgb (width (Jimp_resize 224 224 image))
                         (height (Jimp_resize 224 224 image))
                         (data (Jimp_resize 224 224 image))))
              (foldr Nat.mul 1 [224; 224; 3])) as [Heq | Hne]; [|reflexivity].
  exfalso. rewrite rgba_to_rgb_length in Heq.
  change (foldr Nat.mul 1 [224; 224; 3]) with (224 * (224 * (3 * 1))) in Heq.
  set (n := width (Jimp_resize 224 224 image) * height (Jimp_resize 224 224 image)) in *.
  lia.
Qed.

(** The theorem with a resize that leaves the image of one pixel as it
    is. *)
Lemma wrong_size_is_processing_error_witness :
  preprocessImage (L := unresized_libraries) [x89; x0a; x14; x1e; xff] initial_world =
    (Throw image_processing_error,
     record_call (JimpRead [x89; x0a; x14; x1e; xff]) initial_world).
Proof.
  apply (wrong_size_is_processing_error (L := unresized_libraries)
           [x89; x0a; x14; x1e; xff]
           {| width := 1; height := 1; data := [x0a; x14; x1e; xff] |}
           initial_world eq_refl).
  cbn [unresized_libraries Jimp_resize width height]. lia.
Defined.

(** ** Extra properties: the confidence *)

Local Open Scope Q_scope.

Lemma finalConfidence_distance (s : Q) : finalConfidence s == 0.5 + Qabs (s - 0.5).
Proof.
  unfold finalConfidence.
  destruct (isMalignant_spec s) as [[-> H] | [-> H]].
  - rewrite Qabs_pos by lra. ring.
  - rewrite Qabs_neg by lra. ring.
Qed.

(** X13.  For a raw score in [0, 1] the returned confidence lies between
    50 and 100. *)
Theorem confidence_in_range (score : Q) :
  0 <= score -> score <= 1 ->
  50 <= confidence (interpret score) /\ confidence (interpret score) <= 100.
Proof.
  intros H0 H1. split; [apply confidence_ge_50|].
  rewrite confidence_round2, <- round2_100.
  apply round2_mono. unfold percentage.
  rewrite finalConfidence_max.
  assert (Hmax : Qmax score (1 - score) <= 1) by (apply Q.max_lub; lra).
  lra.
Qed.

(** The theorem at the score 0.9. *)
Lemma confidence_in_range_witness :
  50 <= confidence (interpret 0.9) /\ confidence (interpret 0.9) <= 100.
Proof.
  apply (confidence_in_range 0.9); discriminate.
Defined.

(** X15.  The confidence grows with the distance of the score from the
    threshold 0.5: a score at least as far from 0.5 as another, on either
    side, is given a confidence at least as high. *)
Theorem confidence_grows_with_distance (score1 score2 : Q) :
  Qabs (score1 - 0.5) <= Qabs (score2 - 0.5) ->
  confidence (interpret score1) <= confidence (interpret score2).
Proof.
  intros H. rewrite !confidence_round2. apply round2_mono.
  unfold percentage. rewrite !finalConfidence_distance. lra.
Qed.

(** The theorem at the scores 0.6 and 0.1. *)
Lemma confidence_grows_with_distance_witness :
  confidence (interpret 0.6) <= confidence (interpret 0.1).
Proof.
  apply (confidence_grows_with_distance 0.6 0.1). discriminate.
Defined.

(** ** Extra properties: the prefix removed by [POST /predict] *)

Local Open Scope nat_scope.

Lemma strip_prefix_Some (p s r : string) :
  strip_prefix p s = Some r -> s = p ++ r.
Proof.
  revert s. induction p as [|a p IH]; intros s H.
  - simpl in H. now inversion H.
  - destruct s as [|b s']; [discriminate H|].
    simpl in H. destruct (Ascii.eqb_spec a b) as [-> | Hne]; [|discriminate H].
    simpl. f_equal. now apply IH.
Qed.

Lemma strip_prefix_app (p r : string) : strip_prefix p (p ++ r) = Some r.
Proof.
  induction p as [|a p IH]; [reflexivity|].
  simpl. now rewrite Ascii.eqb_refl.
Qed.

Lemma span_lower_spec (s l r : string) :
  span_lower s = (l, r) -> s = l ++ r /\ lower_letters l = true.
Proof.
  revert l r. induction s as [|c s IH]; intros l r H.
  - simpl in H. inversion H. now split.
  - simpl in H. destruct (is_lower c) eqn:Hc.
    + destruct (span_lower s) as [l' r'] eqn:Hs. inversion H; subst.
      destruct (IH l' r eq_refl) as [-> Hl]. split; [reflexivity|].
      simpl. now rewrite Hc, Hl.
    + inversion H. now split.
Qed.

Lemma span_lower_app (sub : string) (c : ascii) (rest : string) :
  lower_letters sub = true -> is_lower c = false ->
  span_lower (sub ++ String c rest) = (sub, String c rest).
Proof.
  intros Hsub Hc. induction sub as [|a sub IH].
  - simpl. now rewrite Hc.
  - simpl in Hsub. apply andb_true_iff in Hsub as [Ha Hsub].
    simpl. now rewrite Ha, (IH Hsub).
Qed.

(** X16.  The prefix removal of line 167 takes away the start of the
    string exactly when it reads [data:image/], then one or more
    lower-case letters, then [;base64,]: such a string is reduced to what
    follows, and any string the removal changes has that form. *)
Theorem strip_data_url_spec (image : string) :
  (forall sub rest,
     sub <> EmptyString -> lower_letters sub = true ->
     image = "data:image/" ++ sub ++ ";base64," ++ rest ->
     strip_data_url image = rest) /\
  (strip_data_url image = image \/
   exists sub,
     sub <> EmptyString /\ lower_letters sub = true /\
     image = "data:image/" ++ sub ++ ";base64," ++ strip_data_url image).
Proof.
  split.
  - intros sub rest Hne Hlow ->. unfold strip_data_url.
    rewrite strip_prefix_app.
    change (";base64," ++ rest) with (String ";" ("base64," ++ rest)).
    rewrite (span_lower_app sub ";" _ Hlow eq_refl).
    destruct sub as [|a sub]; [contradiction|].
    change (String ";" ("base64," ++ rest)) with (";base64," ++ rest).
    now rewrite strip_prefix_app.
  - unfold strip_data_url.
    destruct (strip_prefix "data:image/" image) as [rest|] eqn:Hp; [|now left].
    destruct (span_lower rest) as [[|a l] rest'] eqn:Hs; [now left|].
    destruct (strip_prefix ";base64," rest') as [base64Data|] eqn:Hb; [|now left].
    right. exists (String a l).
    apply strip_prefix_Some in Hp. apply strip_prefix_Some in Hb.
    destruct (span_lower_spec _ _ _ Hs) as [Hrest Hlow].
    split; [discriminate|]. split; [exact Hlow|].
    now rewrite Hp, Hrest, Hb.
Qed.

(** ** The [catch] of the base64 decoding: claim C10 *)







(** The string of the counterexample is the base64 text of the sample
    image with two characters inserted. *)
Remark noisy_sample_image :
  with_noise (Buffer_toString_base64 [x89; x0a; x14; x1e; xff]) "!iQo UHv8=".
Proof.
  apply noise_skip; [reflexivity | discriminate |].
  do 3 apply noise_keep.
  apply noise_skip; [reflexivity | discriminate |].
  do 5 apply noise_keep. apply noise_end.
Qed.

(** The base64 text of a buffer is valid base64. *)
Lemma standard_base64_char_nat (n : nat) :
  n < 64 ->
  standard_base64_char (base64_char (N.of_nat n)) = true /\
  (N_of_ascii (base64_char (N.of_nat n)) =? 61)%N = false.
Proof.
  intros H.
  do 64 (destruct n as [|n]; [split; reflexivity|]).
  lia.
Qed.

Lemma base64_body_char (v : N) (rest : string) :
  (v < 64)%N -> base64_body (String (base64_char v) rest) = base64_body rest.
Proof.
  intros H. rewrite <- (N2Nat.id v).
  destruct (standard_base64_char_nat (N.to_nat v)) as [Hs He]; [lia|].
  cbn [base64_body]. now rewrite He, Hs.
Qed.

Lemma encoded_groups (n : nat) :
  forall l : Buffer, length l <= n ->
    base64_body (Buffer_toString_base64 l) = true /\
    exists k, String.length (Buffer_toString_base64 l) = 4 * k.
Proof.
  induction n as [|n IH]; intros l Hlen.
  - destruct l; [split; [reflexivity | now exists 0] | simpl in Hlen; lia].
  - destruct l as [|b1 [|b2 [|b3 rest]]].
    + split; [reflexivity | now exists 0].
    + pose proof (byte_lt_256 b1) as H1.
      destruct (sextet_bounds (Byte.to_N b1) 0 0) as (S1 & _ & _ & _ & S5 & _); try lia.
      cbn [Buffer_toString_base64]. cbv zeta.
      rewrite !base64_body_char by assumption.
      split; [reflexivity | now exists 1].
    + pose proof (byte_lt_256 b1) as H1. pose proof (byte_lt_256 b2) as H2.
      destruct (sextet_bounds (Byte.to_N b1) (Byte.to_N b2) 0)
        as (S1 & S2 & _ & _ & _ & S6); try lia.
      cbn [Buffer_toString_base64]. cbv zeta.
      rewrite !base64_body_char by assumption.
      split; [reflexivity | now exists 1].
    + pose proof (byte_lt_256 b1) as H1. pose proof (byte_lt_256 b2) as H2.
      pose proof (byte_lt_256 b3) as H3.
      destruct (sextet_bounds (Byte.to_N b1) (Byte.to_N b2) (Byte.to_N b3))
        as (S1 & S2 & S3 & S4 & _ & _); try assumption.
      cbn [Buffer_toString_base64]. cbv zeta.
      rewrite !base64_body_char by assumption.
      destruct (IH rest) as (Hbody & k & Hk); [simpl in Hlen; lia|].
      split; [exact Hbody|]. exists (S k).
      cbn [String.length]. rewrite Hk. lia.
Qed.

(** What the client sends is valid base64, whatever the buffer. *)
Remark encoded_is_valid (l : Buffer) : valid_base64 (Buffer_toString_base64 l) = true.
Proof.
  destruct (encoded_groups (length l) l (Nat.le_refl _)) as (Hbody & k & Hk).
  unfold valid_base64. rewrite Hbody, Hk, Nat.mul_comm, Nat.Div0.mod_mul. reflexivity.
Qed.

(** ** The result interpreter in binary64: claims C7, C8, C9 *)

Section Binary64Facts.

Import Binary64.
Local Open Scope Q_scope.

(** ** Powers of two *)

Lemma pow2_pos (e : Z) : 0 < pow2 e.
Proof. apply Qpower_0_lt. reflexivity. Qed.

Lemma pow2_add (a b : Z) : pow2 (a + b) == pow2 a * pow2 b.
Proof. apply Qpower_plus. discriminate. Qed.

Lemma pow2_le (a b : Z) : (a <= b)%Z -> pow2 a <= pow2 b.
Proof. intros H. apply Qpower_le_compat_l; [exact H | discriminate]. Qed.

Lemma pow2_lt (a b : Z) : (a < b)%Z -> pow2 a < pow2 b.
Proof. intros H. apply Qpower_lt_compat_l; [exact H | reflexivity]. Qed.

Lemma pow2_lt_inv (a b : Z) : pow2 a < pow2 b -> (a < b)%Z.
Proof. intros H. apply (Qpower_lt_compat_l_inv 2); [exact H | reflexivity]. Qed.

Lemma pow2_Z (n : Z) : (0 <= n)%Z -> pow2 n == inject_Z (2 ^ n).
Proof. intros H. unfold pow2. now rewrite Zpower_Qpower. Qed.

Lemma pow2_neg_mul (e : Z) : pow2 e * pow2 (- e) == 1.
Proof. rewrite <- pow2_add, Z.add_opp_diag_r. reflexivity. Qed.

Lemma div_pow2 (q : Q) (e : Z) : q / pow2 e == q * pow2 (- e).
Proof.
  unfold Qdiv. apply Qmult_comp; [reflexivity|].
  unfold pow2. now rewrite Qpower_opp.
Qed.

(** The binade of a positive rational. *)
Lemma ilog2_spec (q : Q) :
  0 < q -> pow2 (ilog2 q) <= q /\ q < pow2 (ilog2 q + 1).
Proof.
  intros Hq. unfold ilog2.
  pose proof (Qred_correct q) as Hr.
  set (r := Qred q) in *.
  assert (Hrpos : 0 < r) by now rewrite Hr.
  destruct r as [n d] eqn:Er. cbn [Qnum Qden].
  assert (Hn : (0 < n)%Z).
  { unfold Qlt in Hrpos. cbn in Hrpos. lia. }
  pose proof (Z.log2_spec n Hn) as [Hn1 Hn2].
  pose proof (Z.log2_spec (Z.pos d) (Pos2Z.is_pos d)) as [Hd1 Hd2].
  pose proof (Z.log2_nonneg n) as Hln.
  pose proof (Z.log2_nonneg (Z.pos d)) as Hld.
  set (la := Z.log2 n) in *. set (lb := Z.log2 (Z.pos d)) in *.
  assert (En : inject_Z n == (n # d) * inject_Z (Z.pos d)).
  { unfold Qeq, Qmult, inject_Z. cbn. lia. }
  assert (Hdpos : 0 < inject_Z (Z.pos d)) by (unfold Qlt; cbn; lia).
  assert (Qn1 : pow2 la <= inject_Z n) by (rewrite pow2_Z by lia; now rewrite <- Zle_Qle).
  assert (Qn2 : inject_Z n < pow2 (la + 1))
    by (rewrite pow2_Z by lia; rewrite <- Zlt_Qlt; unfold Z.succ in Hn2; lia).
  assert (Qd1 : pow2 lb <= inject_Z (Z.pos d)) by (rewrite pow2_Z by lia; now rewrite <- Zle_Qle).
  assert (Qd2 : inject_Z (Z.pos d) < pow2 (lb + 1))
    by (rewrite pow2_Z by lia; rewrite <- Zlt_Qlt; unfold Z.succ in Hd2; lia).
  (* bounds on the quotient *)
  assert (Hup : (n # d) < pow2 (la - lb + 1)).
  { apply Qnot_le_lt. intros Hc.
    assert (H1 : pow2 (la - lb + 1) * pow2 lb <= (n # d) * inject_Z (Z.pos d)).
    { apply Qle_trans with ((n # d) * pow2 lb).
      - apply Qmult_le_compat_r; [exact Hc | apply Qlt_le_weak, pow2_pos].
      - apply Qmult_le_l; [exact Hrpos | exact Qd1]. }
    rewrite <- pow2_add, <- En in H1.
    replace (la - lb + 1 + lb)%Z with (la + 1)%Z in H1 by lia. lra. }
  assert (Hlow : pow2 (la - lb - 1) < (n # d)).
  { apply Qnot_le_lt. intros Hc.
    assert (H1 : (n # d) * inject_Z (Z.pos d) < pow2 (la - lb - 1) * pow2 (lb + 1)).
    { apply Qle_lt_trans with (pow2 (la - lb - 1) * inject_Z (Z.pos d)).
      - apply Qmult_le_compat_r; [exact Hc | lra].
      - apply Qmult_lt_l; [apply pow2_pos | exact Qd2]. }
    rewrite <- pow2_add, <- En in H1.
    replace (la - lb - 1 + (lb + 1))%Z with la in H1 by lia. lra. }
  rewrite <- Hr.
  destruct (Qle_bool (pow2 (la - lb)) (n # d)) eqn:Hb.
  - apply Qle_bool_iff in Hb. split; [exact Hb | exact Hup].
  - assert (Hlt : (n # d) < pow2 (la - lb)).
    { apply Qnot_le_lt. intros Hc. apply Qle_bool_iff in Hc. congruence. }
    split; [apply Qlt_le_weak; exact Hlow|].
    replace (la - lb - 1 + 1)%Z with (la - lb)%Z by lia. exact Hlt.
Qed.

Lemma ilog2_unique (q : Q) (k : Z) :
  pow2 k <= q -> q < pow2 (k + 1) -> ilog2 q = k.
Proof.
  intros H1 H2.
  assert (Hq : 0 < q) by (pose proof (pow2_pos k); lra).
  destruct (ilog2_spec q Hq) as [H3 H4].
  assert (pow2 k < pow2 (ilog2 q + 1)) by lra.
  assert (pow2 (ilog2 q) < pow2 (k + 1)) by lra.
  apply pow2_lt_inv in H. apply pow2_lt_inv in H0. lia.
Qed.

Lemma ilog2_mono (q1 q2 : Q) : 0 < q1 -> q1 <= q2 -> (ilog2 q1 <= ilog2 q2)%Z.
Proof.
  intros H1 H12.
  destruct (ilog2_spec q1 H1) as [Ha _].
  destruct (ilog2_spec q2 ltac:(lra)) as [_ Hb].
  assert (H : pow2 (ilog2 q1) < pow2 (ilog2 q2 + 1)) by lra.
  apply pow2_lt_inv in H. lia.
Qed.

Lemma ilog2_comp (q q' : Q) : q == q' -> ilog2 q = ilog2 q'.
Proof. intros H. unfold ilog2. now rewrite (Qred_complete _ _ H). Qed.

(** ** Rounding to the nearest integer, ties to even *)

Lemma round_half_even_cases (x : Q) :
  let f := Qfloor x in
  let r := x - inject_Z f in
  (r < 1 # 2 /\ round_half_even x = f) \/
  (r == 1 # 2 /\ round_half_even x = if Z.even f then f else (f + 1)%Z) \/
  (1 # 2 < r /\ round_half_even x = (f + 1)%Z).
Proof.
  intros f r. unfold round_half_even. fold f. fold r.
  destruct (Qle_bool r (1 # 2)) eqn:Hle.
  - apply Qle_bool_iff in Hle.
    destruct (Qeq_bool r (1 # 2)) eqn:Heq.
    + apply Qeq_bool_iff in Heq. right; left. now split.
    + left. split; [|reflexivity].
      apply Qeq_bool_neq in Heq. apply Qle_lteq in Hle. tauto.
  - right; right. split; [|reflexivity].
    apply Qnot_le_lt. intros Hc. apply Qle_bool_iff in Hc. congruence.
Qed.

Lemma round_half_even_bounds (x : Q) :
  (Qfloor x <= round_half_even x <= Qfloor x + 1)%Z.
Proof.
  destruct (round_half_even_cases x) as [[_ ->] | [[_ ->] | [_ ->]]];
    try destruct (Z.even (Qfloor x)); lia.
Qed.

Lemma round_half_even_comp (x y : Q) : x == y -> round_half_even x = round_half_even y.
Proof.
  intros H. unfold round_half_even.
  rewrite (Qfloor_comp _ _ H).
  assert (Hr : x - inject_Z (Qfloor y) == y - inject_Z (Qfloor y)) by now rewrite H.
  now rewrite (Qleb_comp _ _ Hr _ _ (Qeq_refl _)), (Qeqb_comp _ _ Hr _ _ (Qeq_refl _)).
Qed.

(** An integer is left as it is. *)
Lemma round_half_even_Z (n : Z) : round_half_even (inject_Z n) = n.
Proof.
  destruct (round_half_even_cases (inject_Z n)) as [[_ H] | [[Hc _] | [Hc _]]];
    rewrite Qfloor_Z in *.
  - exact H.
  - exfalso. assert (E : inject_Z n - inject_Z n == 0) by ring. rewrite E in Hc. discriminate Hc.
  - exfalso. assert (E : inject_Z n - inject_Z n == 0) by ring. rewrite E in Hc. discriminate Hc.
Qed.

(** Rounding to the nearest integer is monotone. *)
Lemma round_half_even_mono (x y : Q) : x <= y -> (round_half_even x <= round_half_even y)%Z.
Proof.
  intros Hxy.
  pose proof (Qfloor_resp_le _ _ Hxy) as Hf.
  destruct (Z.eq_dec (Qfloor x) (Qfloor y)) as [E | NE].
  - destruct (round_half_even_cases x) as [[Hx ->] | [[Hx ->] | [Hx ->]]];
      destruct (round_half_even_cases y) as [[Hy ->] | [[Hy ->] | [Hy ->]]];
      rewrite ?E in *; try destruct (Z.even (Qfloor y)); try lia; exfalso; lra.
  - pose proof (round_half_even_bounds x). pose proof (round_half_even_bounds y). lia.
Qed.

Lemma round_half_even_ge (x : Q) (n : Z) : inject_Z n <= x -> (n <= round_half_even x)%Z.
Proof.
  intros H. rewrite <- (round_half_even_Z n). now apply round_half_even_mono.
Qed.

Lemma round_half_even_le (x : Q) (n : Z) : x <= inject_Z n -> (round_half_even x <= n)%Z.
Proof.
  intros H. rewrite <- (round_half_even_Z n). now apply round_half_even_mono.
Qed.

(** ** Rounding a positive rational to 53 bits *)

Lemma ulp_exponent_bounds (q : Q) :
  (-1074 <= ulp_exponent q)%Z /\ (ilog2 q - 52 <= ulp_exponent q)%Z.
Proof. unfold ulp_exponent. lia. Qed.

Lemma ulp_exponent_comp (q q' : Q) : q == q' -> ulp_exponent q = ulp_exponent q'.
Proof. intros H. unfold ulp_exponent. now rewrite (ilog2_comp _ _ H). Qed.

Lemma ulp_exponent_mono (q1 q2 : Q) :
  0 < q1 -> q1 <= q2 -> (ulp_exponent q1 <= ulp_exponent q2)%Z.
Proof.
  intros H1 H2. pose proof (ilog2_mono q1 q2 H1 H2). unfold ulp_exponent. lia.
Qed.

Lemma scaled_back (q : Q) (e : Z) : q / pow2 e * pow2 e == q.
Proof.
  field. pose proof (pow2_pos e). lra.
Qed.

Lemma scaled_le (q1 q2 : Q) (e : Z) : q1 <= q2 -> q1 / pow2 e <= q2 / pow2 e.
Proof.
  intros H. rewrite !div_pow2.
  apply Qmult_le_compat_r; [exact H | apply Qlt_le_weak, pow2_pos].
Qed.

Lemma scaled_lt (q1 q2 : Q) (e : Z) : q1 < q2 -> q1 / pow2 e < q2 / pow2 e.
Proof.
  intros H. rewrite !div_pow2.
  apply Qmult_lt_r; [apply pow2_pos | exact H].
Qed.

Lemma scaled_pow2 (a e : Z) : pow2 a / pow2 e == pow2 (a - e).
Proof. rewrite div_pow2, <- pow2_add. reflexivity. Qed.

Lemma round_magnitude_comp (q q' : Q) :
  q == q' -> round_magnitude q == round_magnitude q'.
Proof.
  intros H. unfold round_magnitude.
  rewrite (ulp_exponent_comp _ _ H).
  assert (Hs : q / pow2 (ulp_exponent q') == q' / pow2 (ulp_exponent q')) by now rewrite H.
  now rewrite (round_half_even_comp _ _ Hs).
Qed.

Lemma round_magnitude_nonneg (q : Q) : 0 <= q -> 0 <= round_magnitude q.
Proof.
  intros Hq. unfold round_magnitude.
  apply Qmult_le_0_compat; [|apply Qlt_le_weak, pow2_pos].
  change 0 with (inject_Z 0). rewrite <- Zle_Qle.
  apply round_half_even_ge. change (inject_Z 0) with 0.
  rewrite div_pow2. apply Qmult_le_0_compat; [exact Hq | apply Qlt_le_weak, pow2_pos].
Qed.

(** A rounded value stays within the binade of its argument, end points
    included. *)
Lemma round_magnitude_upper (q : Q) :
  0 < q -> round_magnitude q <= pow2 (ulp_exponent q + 53).
Proof.
  intros Hq. unfold round_magnitude.
  destruct (ilog2_spec q Hq) as [_ Hup].
  destruct (ulp_exponent_bounds q) as [_ He].
  set (e := ulp_exponent q) in *.
  assert (Hs : q / pow2 e <= inject_Z (2 ^ 53)).
  { rewrite <- pow2_Z by lia.
    apply Qle_trans with (pow2 (ilog2 q + 1) / pow2 e).
    - apply scaled_le. lra.
    - rewrite scaled_pow2. apply pow2_le. lia. }
  apply round_half_even_le in Hs.
  rewrite Z.add_comm, pow2_add.
  apply Qmult_le_compat_r; [|apply Qlt_le_weak, pow2_pos].
  rewrite (pow2_Z 53) by lia. now rewrite <- Zle_Qle.
Qed.

Lemma round_magnitude_lower (q : Q) :
  0 < q -> (-1074 <= ilog2 q - 52)%Z -> pow2 (ilog2 q) <= round_magnitude q.
Proof.
  intros Hq Hk. unfold round_magnitude.
  destruct (ilog2_spec q Hq) as [Hlow _].
  assert (He : ulp_exponent q = (ilog2 q - 52)%Z) by (unfold ulp_exponent; lia).
  rewrite He. set (k := ilog2 q) in *.
  assert (Hs : inject_Z (2 ^ 52) <= q / pow2 (k - 52)).
  { rewrite <- pow2_Z by lia.
    apply Qle_trans with (pow2 k / pow2 (k - 52)).
    - rewrite scaled_pow2. apply pow2_le. lia.
    - now apply scaled_le. }
  apply round_half_even_ge in Hs.
  replace k with (52 + (k - 52))%Z at 1 by lia. rewrite pow2_add.
  apply Qmult_le_compat_r; [|apply Qlt_le_weak, pow2_pos].
  rewrite (pow2_Z 52) by lia. now rewrite <- Zle_Qle.
Qed.

(** Rounding to 53 bits is monotone, also across binades. *)
Lemma round_magnitude_mono (q1 q2 : Q) :
  0 < q1 -> q1 <= q2 -> round_magnitude q1 <= round_magnitude q2.
Proof.
  intros H1 H12.
  assert (H2 : 0 < q2) by lra.
  pose proof (ulp_exponent_mono q1 q2 H1 H12) as He.
  destruct (Z.eq_dec (ulp_exponent q1) (ulp_exponent q2)) as [E | NE].
  - unfold round_magnitude. rewrite E.
    apply Qmult_le_compat_r; [|apply Qlt_le_weak, pow2_pos].
    rewrite <- Zle_Qle. apply round_half_even_mono. now apply scaled_le.
  - assert (Hlt : (ulp_exponent q1 < ulp_exponent q2)%Z) by lia.
    assert (Hk2 : ulp_exponent q2 = (ilog2 q2 - 52)%Z).
    { destruct (ulp_exponent_bounds q1). unfold ulp_exponent in *. lia. }
    apply Qle_trans with (pow2 (ulp_exponent q1 + 53)).
    + now apply round_magnitude_upper.
    + apply Qle_trans with (pow2 (ilog2 q2)).
      * apply pow2_le. lia.
      * apply round_magnitude_lower; [exact H2|].
        destruct (ulp_exponent_bounds q1). lia.
Qed.

(** A multiple of [2^g] below [2^(g+53)], with [g] at least -1074, is
    left as it is. *)
Lemma round_magnitude_exact (q : Q) (n g : Z) :
  0 < q -> q == inject_Z n * pow2 g -> q < pow2 (g + 53) -> (-1074 <= g)%Z ->
  round_magnitude q == q.
Proof.
  intros Hq Hn Hlt Hg. unfold round_magnitude.
  destruct (ilog2_spec q Hq) as [Hlow _].
  assert (Hk : (ilog2 q < g + 53)%Z) by (apply pow2_lt_inv; lra).
  assert (He : (ulp_exponent q <= g)%Z) by (unfold ulp_exponent; lia).
  set (e := ulp_exponent q) in *.
  assert (Hs : q / pow2 e == inject_Z (n * 2 ^ (g - e))).
  { rewrite Hn, inject_Z_mult, <- pow2_Z by lia.
    unfold Qdiv. rewrite <- Qmult_assoc.
    apply Qmult_comp; [reflexivity|].
    fold (Qdiv (pow2 g) (pow2 e)). apply scaled_pow2. }
  rewrite (round_half_even_comp _ _ Hs), round_half_even_Z, <- Hs.
  apply scaled_back.
Qed.

(** ** Rounding any rational, and the overflow to the infinities *)

Lemma roundQ_cases (q : Q) :
  (q == 0 /\ roundQ q = 0) \/
  (0 < q /\ roundQ q = round_magnitude q) \/
  (q < 0 /\ roundQ q = - round_magnitude (- q)).
Proof.
  unfold roundQ. destruct (0 ?= q) eqn:Hc.
  - left. apply Qeq_alt in Hc. split; [now symmetry | reflexivity].
  - right; left. apply Qlt_alt in Hc. now split.
  - right; right. apply Qgt_alt in Hc. now split.
Qed.

Lemma roundQ_comp (q q' : Q) : q == q' -> roundQ q == roundQ q'.
Proof.
  intros H.
  destruct (roundQ_cases q) as [[Hq ->] | [[Hq ->] | [Hq ->]]];
    destruct (roundQ_cases q') as [[Hq' ->] | [[Hq' ->] | [Hq' ->]]];
    try (exfalso; lra).
  - reflexivity.
  - now apply round_magnitude_comp.
  - apply Qopp_comp, round_magnitude_comp. now rewrite H.
Qed.

(** Rounding is monotone on all rationals. *)
Lemma roundQ_mono (q1 q2 : Q) : q1 <= q2 -> roundQ q1 <= roundQ q2.
Proof.
  intros H.
  destruct (roundQ_cases q1) as [[H1 ->] | [[H1 ->] | [H1 ->]]];
    destruct (roundQ_cases q2) as [[H2 ->] | [[H2 ->] | [H2 ->]]];
    try (exfalso; lra).
  - lra.
  - apply round_magnitude_nonneg. lra.
  - now apply round_magnitude_mono.
  - pose proof (round_magnitude_nonneg (- q1)). lra.
  - pose proof (round_magnitude_nonneg (- q1)).
    pose proof (round_magnitude_nonneg q2). lra.
  - pose proof (round_magnitude_mono (- q2) (- q1)). lra.
Qed.

(** A multiple of [2^g] of absolute value below [2^(g+53)] is not
    changed. *)
Lemma roundQ_exact (q : Q) (n g : Z) :
  q == inject_Z n * pow2 g -> q < pow2 (g + 53) -> - pow2 (g + 53) < q ->
  (-1074 <= g)%Z -> roundQ q == q.
Proof.
  intros Hn Hup Hlow Hg.
  destruct (roundQ_cases q) as [[Hq ->] | [[Hq ->] | [Hq ->]]].
  - now symmetry.
  - now apply (round_magnitude_exact q n g).
  - rewrite (round_magnitude_exact (- q) (- n) g); try lra; try assumption.
    rewrite Hn, inject_Z_opp. ring.
Qed.


Lemma number_of_Q_comp (v v' : Q) : v == v' -> number_of_Q v = number_of_Q v'.
Proof.
  intros H. unfold number_of_Q.
  rewrite (Qleb_comp _ _ (Qeq_refl (pow2 1024)) _ _ H).
  rewrite (Qleb_comp _ _ H _ _ (Qeq_refl (- pow2 1024))).
  now rewrite (Qred_complete _ _ H).
Qed.

Lemma number_of_Q_cases (v : Q) :
  (pow2 1024 <= v /\ number_of_Q v = PlusInfinity) \/
  (v <= - pow2 1024 /\ number_of_Q v = MinusInfinity) \/
  (- pow2 1024 < v /\ v < pow2 1024 /\ number_of_Q v = Finite (Qred v)).
Proof.
  unfold number_of_Q.
  pose proof (pow2_pos 1024) as Hp.
  destruct (Qle_bool (pow2 1024) v) eqn:H1.
  - left. apply Qle_bool_iff in H1. now split.
  - assert (Hv : v < pow2 1024).
    { apply Qnot_le_lt. intros Hc. apply Qle_bool_iff in Hc. congruence. }
    destruct (Qle_bool v (- pow2 1024)) eqn:H2.
    + right; left. apply Qle_bool_iff in H2. now split.
    + right; right. split; [|now split].
      apply Qnot_le_lt. intros Hc. apply Qle_bool_iff in Hc. congruence.
Qed.

Lemma number_of_Q_mono (v1 v2 : Q) : v1 <= v2 -> le (number_of_Q v1) (number_of_Q v2).
Proof.
  intros H. unfold le. pose proof (pow2_pos 1024) as Hp.
  destruct (number_of_Q_cases v1) as [[H1 ->] | [[H1 ->] | (H1 & H1' & ->)]];
    destruct (number_of_Q_cases v2) as [[H2 ->] | [[H2 ->] | (H2 & H2' & ->)]];
    try (exfalso; lra); try reflexivity.
  cbn [ge]. apply Qle_bool_iff. now rewrite !Qred_correct.
Qed.

Lemma round64_comp (q q' : Q) : q == q' -> round64 q = round64 q'.
Proof. intros H. unfold round64. apply number_of_Q_comp. now apply roundQ_comp. Qed.

(** Rounding to binary64 is monotone, the infinities included. *)
Lemma round64_mono (q1 q2 : Q) : q1 <= q2 -> le (round64 q1) (round64 q2).
Proof. intros H. unfold round64. apply number_of_Q_mono. now apply roundQ_mono. Qed.

Lemma round64_not_nan (q : Q) : round64 q <> NotANumber.
Proof.
  unfold round64.
  destruct (number_of_Q_cases (roundQ q)) as [[_ ->] | [[_ ->] | (_ & _ & ->)]]; discriminate.
Qed.

(** A multiple of [2^g] of absolute value below [2^(g+53)] is a binary64
    number, up to [2^1024]. *)
Lemma round64_exact (q : Q) (n g : Z) :
  q == inject_Z n * pow2 g -> q < pow2 (g + 53) -> - pow2 (g + 53) < q ->
  (-1074 <= g)%Z -> (g + 53 <= 1024)%Z ->
  round64 q = Finite (Qred q).
Proof.
  intros Hn Hup Hlow Hg Hmax.
  pose proof (roundQ_exact q n g Hn Hup Hlow Hg) as Hr.
  unfold round64. rewrite (number_of_Q_comp _ _ Hr).
  pose proof (pow2_le (g + 53) 1024 Hmax).
  destruct (number_of_Q_cases q) as [[H1 _] | [[H1 _] | (_ & _ & ->)]];
    [exfalso; lra | exfalso; lra | reflexivity].
Qed.

Lemma number_le_trans (x y z : number) : le x y -> le y z -> le x z.
Proof.
  unfold le. destruct x, y, z; cbn [ge]; try discriminate; try reflexivity.
  rewrite !Qle_bool_iff. intros. lra.
Qed.

Lemma le_Finite (a b : Q) : le (Finite a) (Finite b) <-> a <= b.
Proof. unfold le. cbn [ge]. apply Qle_bool_iff. Qed.

(** ** The interpretation in binary64 *)

Lemma round64_half : round64 (1 # 2) = Finite (1 # 2).
Proof. vm_compute. reflexivity. Qed.

Lemma round64_50 : round64 50 = Finite 50.
Proof. vm_compute. reflexivity. Qed.

Lemma round64_5000 : round64 5000 = Finite 5000.
Proof. vm_compute. reflexivity. Qed.

Lemma le_not_nan_r (x y : number) : le x y -> y <> NotANumber.
Proof. unfold le. destruct y; discriminate. Qed.

Lemma le_PlusInfinity (x : number) : x <> NotANumber -> le x PlusInfinity.
Proof. destruct x; intros H; try reflexivity. now destruct H. Qed.

(** The final confidence of a number is at least one half: rounding
    [1 - q] cannot take it below the binary64 number 0.5. *)
Lemma finalConfidence_ge_half (x : number) :
  x <> NotANumber -> le (Finite (1 # 2)) (finalConfidence x).
Proof.
  intros Hx. unfold finalConfidence, isMalignant.
  destruct x as [q | | |]; cbn [gt sub].
  - destruct (Qle_bool q (1 # 2)) eqn:Hq; cbn [negb].
    + apply Qle_bool_iff in Hq. rewrite <- round64_half.
      apply round64_mono. lra.
    + apply le_Finite. apply Qlt_le_weak, Qnot_le_lt.
      intros Hc. apply Qle_bool_iff in Hc. congruence.
  - reflexivity.
  - reflexivity.
  - now destruct Hx.
Qed.

Lemma mul_100_mono (c : Q) (x : number) :
  le (Finite c) x -> le (round64 (c * 100)) (mul x (Finite 100)).
Proof.
  intros H. destruct x as [a | | |]; cbn [mul].
  - apply round64_mono. apply le_Finite in H. lra.
  - change (0 ?= 100) with Lt. cbv iota.
    apply le_PlusInfinity, round64_not_nan.
  - discriminate H.
  - discriminate H.
Qed.

(** The value that [Math.round] receives is at least 5000. *)
Lemma product_ge_5000 (x : number) :
  x <> NotANumber ->
  le (Finite 5000) (mul (mul (finalConfidence x) (Finite 100)) (Finite 100)).
Proof.
  intros Hx.
  pose proof (mul_100_mono _ _ (finalConfidence_ge_half x Hx)) as H1.
  rewrite (round64_comp _ 50) in H1 by reflexivity. rewrite round64_50 in H1.
  pose proof (mul_100_mono _ _ H1) as H2.
  rewrite (round64_comp _ 5000) in H2 by reflexivity. now rewrite round64_5000 in H2.
Qed.

Lemma Math_round_floor (p : Q) :
  5000 <= p -> (5000 <= Qfloor (p + (1 # 2)))%Z.
Proof.
  intros H. rewrite <- (Qfloor_Z 5000). apply Qfloor_resp_le.
  change (inject_Z 5000) with 5000. lra.
Qed.

(** The returned confidence of a number is at least 50. *)
Lemma binary64_confidence_ge_50 (x : number) :
  x <> NotANumber -> le (Finite 50) (confidence (interpret x)).
Proof.
  intros Hx. cbn [interpret confidence].
  pose proof (product_ge_5000 x Hx) as HP.
  destruct (mul (mul (finalConfidence x) (Finite 100)) (Finite 100)) as [p | | |];
    try discriminate HP.
  - apply le_Finite in HP. cbn [Math_round div].
    change (Qeq_bool 100 0) with false. cbv iota.
    rewrite <- round64_50. apply round64_mono.
    pose proof (Math_round_floor p HP) as Hk.
    apply Qle_shift_div_l; [reflexivity|].
    change (50 * 100) with (inject_Z 5000). now rewrite <- Zle_Qle.
  - reflexivity.
Qed.

(** The final confidence of a number is the larger of the score and of
    [1 - score] as binary64 computes it. *)
Lemma binary64_finalConfidence_max (x : number) :
  x <> NotANumber -> finalConfidence x = Math_max x (sub (Finite 1) x).
Proof.
  intros Hx. unfold finalConfidence, isMalignant.
  destruct x as [q | | |]; cbn [gt sub]; try reflexivity.
  destruct (Qle_bool q (1 # 2)) eqn:Hq; cbn [negb].
  - apply Qle_bool_iff in Hq.
    assert (H : le (Finite (1 # 2)) (round64 (1 - q)))
      by (rewrite <- round64_half; apply round64_mono; lra).
    destruct (round64 (1 - q)) as [b | | |]; try discriminate H; [|reflexivity].
    apply le_Finite in H. cbn [Math_max gt].
    assert (Hb : Qle_bool q b = true) by (apply Qle_bool_iff; lra).
    now rewrite Hb.
  - assert (Hgt : 1 # 2 < q).
    { apply Qnot_le_lt. intros Hc. apply Qle_bool_iff in Hc. congruence. }
    assert (H : le (round64 (1 - q)) (Finite (1 # 2)))
      by (rewrite <- round64_half; apply round64_mono; lra).
    destruct (round64 (1 - q)) as [b | | |]; try discriminate H; [|reflexivity].
    apply le_Finite in H. cbn [Math_max gt].
    assert (Hb : Qle_bool q b = false).
    { apply not_true_iff_false. rewrite Qle_bool_iff. lra. }
    now rewrite Hb.
Qed.

(** A binary64 rational is in lowest terms and is its own rounding. *)
Lemma representable_fixed (q : Q) :
  round64 q = Finite q -> q = Qred (roundQ q) /\ roundQ q == q.
Proof.
  unfold round64. intros H.
  destruct (number_of_Q_cases (roundQ q)) as [[_ E] | [[_ E] | (_ & _ & E)]];
    rewrite E in H; try discriminate H.
  injection H as H. split; [now symmetry|].
  rewrite <- H at 2. symmetry. apply Qred_correct.
Qed.

Lemma representable_canonical (q q' : Q) :
  round64 q = Finite q -> q' == q -> Qred q' = q.
Proof.
  intros H E. destruct (representable_fixed q H) as [Hq Hr].
  rewrite Hq. apply Qred_complete. now rewrite E, Hr.
Qed.

(** A positive binary64 rational is a multiple of its last place. *)
Lemma representable_multiple (q : Q) :
  0 < q -> round64 q = Finite q ->
  q == inject_Z (round_half_even (q / pow2 (ulp_exponent q))) * pow2 (ulp_exponent q).
Proof.
  intros Hq H. destruct (representable_fixed q H) as [_ Hr].
  destruct (roundQ_cases q) as [[Hc _] | [[_ E] | [Hc _]]]; try (exfalso; lra).
  rewrite E in Hr. unfold round_magnitude in Hr. now symmetry.
Qed.

(** Below one half the only binary64 value above [1/2 - 2^-53] is
    [pred_half]. *)
Lemma below_half (q : Q) :
  round64 q = Finite q -> q < 1 # 2 -> q <> pred_half ->
  q <= (1 # 2) - pow2 (-53).
Proof.
  intros Hrep Hlt Hne.
  apply Qnot_lt_le. intros Hgt.
  assert (Hq : 0 < q).
  { assert (0 < (1 # 2) - pow2 (-53)) by reflexivity. lra. }
  assert (Hk : ilog2 q = (-2)%Z).
  { apply ilog2_unique.
    - assert (pow2 (-2) <= (1 # 2) - pow2 (-53)) by discriminate. lra.
    - assert (pow2 (-2 + 1) == 1 # 2) by reflexivity. lra. }
  assert (He : ulp_exponent q = (-54)%Z) by (unfold ulp_exponent; rewrite Hk; reflexivity).
  pose proof (representable_multiple q Hq Hrep) as Hm.
  rewrite He in Hm.
  set (n := round_half_even (q / pow2 (-54))) in *.
  assert (Hn : n = 9007199254740991%Z).
  { assert (H1 : inject_Z 9007199254740990 < inject_Z n).
    { apply (Qmult_lt_r _ _ (pow2 (-54))); [apply pow2_pos|].
      rewrite <- Hm.
      assert (E : inject_Z 9007199254740990 * pow2 (-54) == (1 # 2) - pow2 (-53)) by reflexivity.
      now rewrite E. }
    assert (H2 : inject_Z n < inject_Z 9007199254740992).
    { apply (Qmult_lt_r _ _ (pow2 (-54))); [apply pow2_pos|].
      rewrite <- Hm.
      assert (E : inject_Z 9007199254740992 * pow2 (-54) == 1 # 2) by reflexivity.
      now rewrite E. }
    rewrite <- Zlt_Qlt in H1, H2. lia. }
  apply Hne.
  rewrite <- (representable_canonical q pred_half Hrep).
  - reflexivity.
  - rewrite Hm, Hn. reflexivity.
Qed.

(** Above one half and below [2^53], [1 - q] is computed exactly. *)
Lemma one_minus_exact (q : Q) :
  round64 q = Finite q -> 1 # 2 < q -> q < pow2 53 ->
  round64 (1 - q) = Finite (Qred (1 - q)).
Proof.
  intros Hrep Hgt Hlt.
  assert (Hq : 0 < q) by lra.
  destruct (ilog2_spec q Hq) as [Hlow Hup].
  assert (Hk1 : (-1 <= ilog2 q)%Z).
  { assert (H : pow2 (-1) < pow2 (ilog2 q + 1)).
    { assert (pow2 (-1) == 1 # 2) by reflexivity. lra. }
    apply pow2_lt_inv in H. lia. }
  assert (Hk2 : (ilog2 q < 53)%Z) by (apply pow2_lt_inv; lra).
  assert (He : ulp_exponent q = (ilog2 q - 52)%Z) by (unfold ulp_exponent; lia).
  pose proof (representable_multiple q Hq Hrep) as Hm.
  rewrite He in Hm.
  set (k := ilog2 q) in *.
  set (n := round_half_even (q / pow2 (k - 52))) in *.
  assert (Hone : 1 == inject_Z (2 ^ (52 - k)) * pow2 (k - 52)).
  { rewrite <- pow2_Z by lia. rewrite <- pow2_add.
    replace (52 - k + (k - 52))%Z with 0%Z by lia. reflexivity. }
  assert (Hp : 1 <= pow2 (k + 1)).
  { change 1 with (pow2 0). apply pow2_le. lia. }
  apply (round64_exact (1 - q) (2 ^ (52 - k) - n) (k - 52)).
  - assert (E : 1 - q == inject_Z (2 ^ (52 - k)) * pow2 (k - 52)
                        - inject_Z n * pow2 (k - 52))
      by (rewrite <- Hone, <- Hm; reflexivity).
    rewrite E. unfold Zminus. rewrite inject_Z_plus, inject_Z_opp. ring.
  - replace (k - 52 + 53)%Z with (k + 1)%Z by lia. lra.
  - replace (k - 52 + 53)%Z with (k + 1)%Z by lia. lra.
  - lia.
  - lia.
Qed.

(** The returned confidence depends on the final confidence only. *)
Lemma confidence_of_finalConfidence (x y : number) :
  finalConfidence x = finalConfidence y ->
  confidence (interpret x) = confidence (interpret y).
Proof. intros H. cbn [interpret confidence]. now rewrite H. Qed.

Lemma isMalignant_Finite (q : Q) :
  (isMalignant (Finite q) = true <-> 1 # 2 < q) /\
  (isMalignant (Finite q) = false <-> q <= 1 # 2).
Proof.
  unfold isMalignant. cbn [gt].
  destruct (Qle_bool q (1 # 2)) eqn:H; cbn [negb].
  - apply Qle_bool_iff in H. split; split; try discriminate; auto. intros; lra.
  - assert (Hgt : 1 # 2 < q).
    { apply Qnot_le_lt. intros Hc. apply Qle_bool_iff in Hc. congruence. }
    split; split; try discriminate; auto. intros; lra.
Qed.


Lemma round64_above_half : round64 above_half = Finite above_half.
Proof. vm_compute. reflexivity. Qed.

Lemma above_half_value : above_half == (1 # 2) + pow2 (-53).
Proof. reflexivity. Qed.

(** C7 (as amended).  For every binary64 raw score [x] that is at most
    [2^53] and is neither 0.5 nor the number just below it,
    0.49999999999999994, the scores [x] and [1 - x] are given opposite
    labels and equal confidences. *)
Theorem binary64_symmetry (x : number) :
  representable x ->
  le x (Finite 9007199254740992) ->
  x <> Finite (1 # 2) ->
  x <> Finite pred_half ->
  ((diagnosis (interpret x) = "Maligno"%string /\
    diagnosis (interpret (sub (Finite 1) x)) = "Benigno"%string) \/
   (diagnosis (interpret x) = "Benigno"%string /\
    diagnosis (interpret (sub (Finite 1) x)) = "Maligno"%string)) /\
  confidence (interpret x) = confidence (interpret (sub (Finite 1) x)).
Proof.
  intros Hrep Hmax Hhalf Hpred.
  destruct x as [q | | |].
  - cbn [representable] in Hrep. apply le_Finite in Hmax.
    destruct (Q_dec q (1 # 2)) as [[Hlt | Hgt] | Heq].
    + (* below one half *)
      assert (Hq : q <= (1 # 2) - pow2 (-53)).
      { apply below_half; auto. intros E. apply Hpred. now rewrite E. }
      assert (Hy : le (Finite above_half) (round64 (1 - q))).
      { rewrite <- round64_above_half. apply round64_mono.
        rewrite above_half_value. lra. }
      assert (Hmx : isMalignant (Finite q) = false) by (apply isMalignant_Finite; lra).
      assert (Hmy : isMalignant (round64 (1 - q)) = true).
      { destruct (round64 (1 - q)) as [b | | |]; try discriminate Hy; [|reflexivity].
        apply le_Finite in Hy. apply isMalignant_Finite.
        rewrite above_half_value in Hy.
        assert (0 < pow2 (-53)) by apply pow2_pos. lra. }
      cbn [sub]. split.
      * right. cbn [interpret diagnosis]. now rewrite Hmx, Hmy.
      * apply confidence_of_finalConfidence. unfold finalConfidence.
        rewrite Hmx, Hmy. reflexivity.
    + (* above one half *)
      assert (Hmx : isMalignant (Finite q) = true) by (apply isMalignant_Finite; lra).
      destruct (Q_dec q 9007199254740992) as [[Hlt | Hgt'] | Heq].
      * assert (Hp : q < pow2 53) by (assert (pow2 53 == 9007199254740992) by reflexivity; lra).
        pose proof (one_minus_exact q Hrep Hgt Hp) as Hy.
        assert (Hmy : isMalignant (Finite (Qred (1 - q))) = false).
        { apply isMalignant_Finite. rewrite Qred_correct. lra. }
        cbn [sub]. rewrite Hy. split.
        -- left. cbn [interpret diagnosis]. now rewrite Hmx, Hmy.
        -- apply confidence_of_finalConfidence. unfold finalConfidence.
           rewrite Hmx, Hmy. cbn [sub].
           rewrite (round64_comp _ q) by (rewrite Qred_correct; ring).
           now symmetry.
      * exfalso. lra.
      * pose proof (representable_canonical q 9007199254740992 Hrep ltac:(now symmetry)) as E.
        vm_compute in E. subst q. vm_compute. split; [left; split|]; reflexivity.
    + exfalso. apply Hhalf.
      pose proof (representable_canonical q (1 # 2) Hrep ltac:(now symmetry)) as E.
      vm_compute in E. now subst q.
  - discriminate Hmax.
  - vm_compute. split; [right; split|]; reflexivity.
  - destruct Hrep.
Qed.

(** C7, the claim as stated fails.  The binary64 number just below one
    half, 0.49999999999999994, is a raw score other than 0.5; the
    subtraction [1 - x] of line 112 rounds to exactly 0.5 there, so that
    [x] and [1 - x] are both labelled Benigno. *)
Lemma symmetry_fails_below_half :
  representable (Finite pred_half) /\
  Finite pred_half <> Finite (1 # 2) /\
  sub (Finite 1) (Finite pred_half) = Finite (1 # 2) /\
  diagnosis (interpret (Finite pred_half)) = "Benigno"%string /\
  diagnosis (interpret (sub (Finite 1) (Finite pred_half))) = "Benigno"%string.
Proof. vm_compute. repeat split; try reflexivity. discriminate. Qed.

(** The bound [2^53] of the amended claim is needed: beyond it [1 - x] is
    rounded, and at [2^53 + 2] the two confidences differ. *)
Remark symmetry_fails_above_2_53 :
  representable (Finite 9007199254740994) /\
  confidence (interpret (Finite 9007199254740994))
    <> confidence (interpret (sub (Finite 1) (Finite 9007199254740994))).
Proof. split; [vm_compute; reflexivity | vm_compute; discriminate]. Qed.

(** [NaN] is labelled Benigno, and so is [1 - NaN], which is [NaN]. *)
Remark symmetry_fails_at_nan :
  sub (Finite 1) NotANumber = NotANumber /\
  diagnosis (interpret NotANumber) = "Benigno"%string.
Proof. split; reflexivity. Qed.

(** The theorem at the binary64 number nearest to 0.9. *)
Lemma binary64_symmetry_witness :
  exists x,
    round64 0.9 = x /\
    diagnosis (interpret x) = "Maligno"%string /\
    diagnosis (interpret (sub (Finite 1) x)) = "Benigno"%string /\
    confidence (interpret x) = confidence (interpret (sub (Finite 1) x)).
Proof.
  eexists. split; [vm_compute; reflexivity|].
  assert (Hrep : representable (Finite (8106479329266893 # 9007199254740992)))
    by (vm_compute; reflexivity).
  assert (Hle : le (Finite (8106479329266893 # 9007199254740992)) (Finite 9007199254740992))
    by (vm_compute; reflexivity).
  assert (Hhalf : Finite (8106479329266893 # 9007199254740992) <> Finite (1 # 2))
    by discriminate.
  assert (Hpred : Finite (8106479329266893 # 9007199254740992) <> Finite pred_half)
    by (unfold pred_half; discriminate).
  destruct (binary64_symmetry _ Hrep Hle Hhalf Hpred) as [[[Hm Hb] | [Hb _]] Hconf].
  - split; [exact Hm|]. split; [exact Hb | exact Hconf].
  - vm_compute in Hb. discriminate Hb.
Defined.

(** ** The rounding of the confidence in binary64: claim C8 *)

(** Rounding half away from zero respects the equality of rationals. *)
Lemma round_half_away_comp (x y : Q) : x == y -> round_half_away x = round_half_away y.
Proof.
  intros H. unfold round_half_away.
  rewrite (Qleb_comp _ _ (Qeq_refl 0) _ _ H).
  assert (H1 : x + (1 # 2) == y + (1 # 2)) by now rewrite H.
  assert (H2 : - x + (1 # 2) == - y + (1 # 2)) by now rewrite H.
  now rewrite (Qfloor_comp _ _ H1), (Qfloor_comp _ _ H2).
Qed.

Lemma pow2_minus_1 : pow2 (-1) == 1 # 2.
Proof. reflexivity. Qed.

(** Half an integer below [2^52] is a binary64 number. *)
Lemma half_integer_exact (m : Z) :
  0 < inject_Z m * (1 # 2) -> inject_Z m * (1 # 2) < pow2 52 ->
  roundQ (inject_Z m * (1 # 2)) == inject_Z m * (1 # 2).
Proof.
  intros Hpos Hlt.
  apply (roundQ_exact _ m (-1)).
  - now rewrite pow2_minus_1.
  - exact Hlt.
  - pose proof (pow2_pos (-1 + 53)). lra.
  - lia.
Qed.

(** The binary64 percentage of a number is at least 50. *)
Lemma percentage_ge_50_binary64 (x : number) :
  x <> NotANumber -> le (Finite 50) (mul (finalConfidence x) (Finite 100)).
Proof.
  intros Hx.
  pose proof (mul_100_mono _ _ (finalConfidence_ge_half x Hx)) as H1.
  rewrite (round64_comp _ 50) in H1 by reflexivity. now rewrite round64_50 in H1.
Qed.

(** The integer that [Math.round] returns is the one nearest to the exact
    product of the percentage by 100, or the next one: the rounding of
    the product to binary64 cannot cross more than one half-way point. *)
Lemma confidence_near_two_decimals (x : number) (a : Q) :
  x <> NotANumber ->
  mul (finalConfidence x) (Finite 100) = Finite a ->
  a < pow2 45 ->
  exists n : Z,
    (n = round_half_away (a * 100) \/ n = (round_half_away (a * 100) + 1)%Z) /\
    confidence (interpret x) = round64 (inject_Z n / 100).
Proof.
  intros Hx Ha Hbound.
  pose proof (percentage_ge_50_binary64 x Hx) as H50.
  rewrite Ha in H50. apply le_Finite in H50.
  assert (Hk : round_half_away (a * 100) = Qfloor (a * 100 + (1 # 2))).
  { unfold round_half_away.
    assert (Hb : Qle_bool 0 (a * 100) = true) by (apply Qle_bool_iff; lra).
    now rewrite Hb. }
  set (k := round_half_away (a * 100)) in *.
  pose proof (Qfloor_le (a * 100 + (1 # 2))) as Hlo.
  pose proof (Qlt_floor (a * 100 + (1 # 2))) as Hhi.
  rewrite <- Hk in Hlo, Hhi.
  rewrite inject_Z_plus in Hhi. change (inject_Z 1) with 1 in Hhi.
  assert (H45 : pow2 45 == 35184372088832) by reflexivity.
  assert (H52 : pow2 52 == 4503599627370496) by reflexivity.
  assert (Elo : inject_Z k - (1 # 2) == inject_Z (2 * k - 1) * (1 # 2)).
  { unfold Z.sub. rewrite inject_Z_plus, inject_Z_mult. change (inject_Z 2) with 2.
    change (inject_Z (- (1))) with (- (1)). ring. }
  assert (Ehi : inject_Z k + (1 # 2) == inject_Z (2 * k + 1) * (1 # 2)).
  { rewrite inject_Z_plus, inject_Z_mult. change (inject_Z 2) with 2.
    change (inject_Z 1) with 1. ring. }
  assert (Hklo : 4999 <= inject_Z k - (1 # 2)) by lra.
  assert (Rlo : inject_Z k - (1 # 2) <= roundQ (a * 100)).
  { pose proof (half_integer_exact (2 * k - 1)) as Hex.
    pose proof (roundQ_mono (inject_Z (2 * k - 1) * (1 # 2)) (a * 100)) as Hm.
    lra. }
  assert (Rhi : roundQ (a * 100) <= inject_Z k + (1 # 2)).
  { pose proof (half_integer_exact (2 * k + 1)) as Hex.
    pose proof (roundQ_mono (a * 100) (inject_Z (2 * k + 1) * (1 # 2))) as Hm.
    lra. }
  pose proof (pow2_le 52 1024 ltac:(lia)) as Hbig.
  assert (HP : mul (Finite a) (Finite 100) = Finite (Qred (roundQ (a * 100)))).
  { cbn [mul]. unfold round64.
    destruct (number_of_Q_cases (roundQ (a * 100))) as [[H1 _] | [[H1 _] | (_ & _ & E)]];
      [exfalso; lra | exfalso; lra | exact E]. }
  exists (Qfloor (Qred (roundQ (a * 100)) + (1 # 2))).
  split.
  - pose proof (Qred_correct (roundQ (a * 100))) as Hred.
    pose proof (Qfloor_le (Qred (roundQ (a * 100)) + (1 # 2))) as Flo.
    pose proof (Qlt_floor (Qred (roundQ (a * 100)) + (1 # 2))) as Fhi.
    rewrite inject_Z_plus in Fhi. change (inject_Z 1) with 1 in Fhi.
    set (n := Qfloor (Qred (roundQ (a * 100)) + (1 # 2))) in *.
    assert (Hn1 : inject_Z k < inject_Z (n + 1)).
    { rewrite inject_Z_plus. change (inject_Z 1) with 1. lra. }
    assert (Hn2 : inject_Z n < inject_Z (k + 2)).
    { rewrite inject_Z_plus. change (inject_Z 2) with 2. lra. }
    rewrite <- Zlt_Qlt in Hn1, Hn2. lia.
  - cbn [interpret confidence]. rewrite Ha, HP. cbn [Math_round div].
    change (Qeq_bool 100 0) with false. reflexivity.
Qed.

(** C8 (as amended).  For every raw score that is a number, line 116
    computes the confidence from the product [P] of the final confidence
    by 100 and by 100, each product rounded to binary64: [P] is at least
    5000, the confidence is the integer nearest to [P], a half-way value
    going away from zero, divided by 100 and rounded to binary64 (an
    infinite [P] gives an infinite confidence).  When the second product
    is exact, this is the percentage [finalConfidence * 100] rounded to
    two decimals, half-way values away from zero, as near as binary64 has
    it; for every percentage below [2^45] it is that rounding or one
    hundredth above it. *)
Theorem binary64_confidence_rounding (x : number) :
  x <> NotANumber ->
  let pct := mul (finalConfidence x) (Finite 100) in
  ((mul pct (Finite 100) = PlusInfinity /\ confidence (interpret x) = PlusInfinity) \/
   (exists p,
      mul pct (Finite 100) = Finite p /\ 5000 <= p /\
      confidence (interpret x) = round64 (inject_Z (round_half_away p) / 100))) /\
  (forall a, pct = Finite a -> mul pct (Finite 100) = Finite (Qred (a * 100)) ->
     confidence (interpret x) = round64 (round2_half_away a)) /\
  (forall a, pct = Finite a -> a < pow2 45 ->
     exists n : Z,
       (n = round_half_away (a * 100) \/ n = (round_half_away (a * 100) + 1)%Z) /\
       confidence (interpret x) = round64 (inject_Z n / 100)).
Proof.
  intros Hx pct.
  pose proof (product_ge_5000 x Hx) as HP. fold pct in HP.
  assert (Hconf : confidence (interpret x)
                  = div (Math_round (mul pct (Finite 100))) (Finite 100)) by reflexivity.
  assert (Hfin : forall p, mul pct (Finite 100) = Finite p -> 5000 <= p ->
            confidence (interpret x) = round64 (inject_Z (round_half_away p) / 100)).
  { intros p Hp H5. rewrite Hconf, Hp. cbn [Math_round div].
    change (Qeq_bool 100 0) with false. cbv iota.
    unfold round_half_away.
    assert (Hb : Qle_bool 0 p = true) by (apply Qle_bool_iff; lra).
    now rewrite Hb. }
  split; [|split].
  - destruct (mul pct (Finite 100)) as [p | | |] eqn:EP; try discriminate HP.
    + right. exists p. apply le_Finite in HP. repeat split; auto.
    + left. split; [reflexivity|]. now rewrite Hconf.
  - intros a Ha Hexact. rewrite Hexact in HP. apply le_Finite in HP.
    rewrite (Hfin _ Hexact HP). unfold round2_half_away.
    rewrite (round_half_away_comp _ (a * 100)) by apply Qred_correct.
    reflexivity.
  - intros a Ha Hbound. exact (confidence_near_two_decimals x a Hx Ha Hbound).
Qed.

(** The theorem at the binary64 number nearest to 0.123456: the products
    are 87.6544 and 8765.44 rounded to binary64, and the confidence is
    the binary64 number nearest to 87.65. *)
Lemma binary64_confidence_rounding_witness :
  exists x,
    round64 0.123456 = x /\
    confidence (interpret x) = round64 87.65.
Proof.
  eexists. split; [vm_compute; reflexivity|].
  match goal with
  | |- confidence (interpret ?x) = _ =>
      assert (Hx : x <> NotANumber) by discriminate;
      destruct (binary64_confidence_rounding x Hx) as [[[Hinf _] | (p & Hp & _ & Hconf)] _]
  end.
  - vm_compute in Hinf. discriminate Hinf.
  - rewrite Hconf. vm_compute in Hp. injection Hp as <-. vm_compute. reflexivity.
Defined.

(** C8, the claim as stated fails: the products of line 116 are rounded
    to binary64 before [Math.round] sees them.  At the binary64 number
    nearest to 0.02175 the percentage [(1 - x) * 100] lies above 97.825
    and rounds to 97.83 under either rule, and the confidence is the
    binary64 number nearest to 97.82.  The percentage as line 116 has it,
    the binary64 product [finalConfidence * 100], does not save the claim:
    at the binary64 number nearest to 0.50025 it lies below 50.025, as
    the score times 100 does, and rounds to 50.02 under either rule,
    while the confidence is the binary64 number nearest to 50.03. *)
Lemma rounding_differs_from_two_decimals :
  (exists q,
     round64 0.02175 = Finite q /\
     round2_half_away ((1 - q) * 100) == 97.83 /\
     round2_half_even ((1 - q) * 100) == 97.83 /\
     confidence (interpret (Finite q)) = round64 97.82 /\
     round64 97.82 <> round64 97.83) /\
  (exists q p,
     round64 0.50025 = Finite q /\
     mul (finalConfidence (Finite q)) (Finite 100) = Finite p /\
     round2_half_away p == 50.02 /\ round2_half_even p == 50.02 /\
     round2_half_away (q * 100) == 50.02 /\
     round2_half_even (q * 100) == 50.02 /\
     confidence (interpret (Finite q)) = round64 50.03 /\
     round64 50.03 <> round64 50.02).
Proof.
  split.
  - eexists. split; [vm_compute; reflexivity|].
    vm_compute. repeat split; try reflexivity; discriminate.
  - eexists. eexists. split; [vm_compute; reflexivity|].
    split; [vm_compute; reflexivity|].
    vm_compute. repeat split; try reflexivity; discriminate.
Qed.

(** ** The lower bound of the confidence in binary64: claim C9 *)

(** C9 (as amended).  For every raw score that is a number, in or out of
    [0, 1], the value that line 116 rounds is
    [Math.max(score, 1 - score) * 100 * 100] computed in binary64, and
    the returned confidence is at least 50, hence never negative. *)
Theorem binary64_confidence_at_least_50 (x : number) :
  x <> NotANumber ->
  confidence (interpret x) =
    div (Math_round (mul (mul (Math_max x (sub (Finite 1) x)) (Finite 100)) (Finite 100)))
        (Finite 100) /\
  ge (confidence (interpret x)) (Finite 50) = true /\
  gt (Finite 0) (confidence (interpret x)) = false.
Proof.
  intros Hx. split; [|split].
  - cbn [interpret confidence]. now rewrite (binary64_finalConfidence_max x Hx).
  - exact (binary64_confidence_ge_50 x Hx).
  - pose proof (binary64_confidence_ge_50 x Hx) as H.
    destruct (confidence (interpret x)) as [c | | |]; try discriminate H; [|reflexivity].
    apply le_Finite in H. cbn [gt].
    assert (Hb : Qle_bool 0 c = true) by (apply Qle_bool_iff; lra).
    now rewrite Hb.
Qed.

(** The theorem at the score -0.5, out of range: the confidence is 150. *)
Lemma binary64_confidence_at_least_50_witness :
  confidence (interpret (Finite (- (1 # 2)))) = Finite 150 /\
  ge (confidence (interpret (Finite (- (1 # 2))))) (Finite 50) = true.
Proof.
  assert (Hx : Finite (- (1 # 2)) <> NotANumber) by discriminate.
  destruct (binary64_confidence_at_least_50 _ Hx) as (Hconf & Hge & _).
  split; [|exact Hge].
  rewrite Hconf. vm_compute. reflexivity.
Defined.

(** C9, the claim as stated fails.  A raw score that is [NaN] (as when
    the model's output holds [NaN], or is empty, [predictionData[0]]
    being [undefined]) makes [confidence > 0.5] false and [1 - confidence]
    [NaN]: the label is Benigno and the returned confidence is [NaN],
    which is not at least 50. *)
Lemma confidence_of_nan :
  diagnosis (interpret NotANumber) = "Benigno"%string /\
  confidence (interpret NotANumber) = NotANumber /\
  ge (confidence (interpret NotANumber)) (Finite 50) = false.
Proof. repeat split. Qed.

(** ** The model of binary64 against the kernel's floats *)

(** On the sample floats, subtraction, multiplication, division and
    comparison give in [Binary64] the value that the processor gives, and
    so do the label and the confidence of lines 110-116. *)
Remark binary64_agrees_with_floats :
  forallb (fun a => forallb (floats_agree a) sample_operands) sample_floats = true /\
  forallb interpret_agrees sample_floats = true.
Proof. vm_compute. split; reflexivity. Qed.

(** The scores of the counterexamples, as floats. *)
Remark counterexample_scores_as_floats :
  number_of_float (float_of_ratio 2175 100000) = round64 0.02175 /\
  number_of_float (float_of_ratio 50025 100000) = round64 0.50025 /\
  number_of_float (PrimFloat.next_down (float_of_ratio 1 2)) = Finite pred_half /\
  number_of_float (snd (float_interpret (float_of_ratio 2175 100000))) = round64 97.82 /\
  number_of_float (snd (float_interpret (float_of_ratio 50025 100000))) = round64 50.03 /\
  fst (float_interpret (PrimFloat.next_down (float_of_ratio 1 2))) = false /\
  fst (float_interpret
         (PrimFloat.sub (float_of_Z 1) (PrimFloat.next_down (float_of_ratio 1 2)))) = false.
Proof. vm_compute. repeat split. Qed.

End Binary64Facts.
